(** * Sandboxed file-system controller ([src/controllers/fs.js])

    A shallow embedding of the [FileSystem] class of the daemon and the
    properties its specification states about it.

    Conventions.
    - JavaScript values are the inductive [JsVal]; strings are Rocq
      strings (one character per code unit, which is exact for the ASCII
      paths the controller handles).
    - Everything the controller hands to the operating system or to a
      library ([Fs.move], the unpacking engine, a tar stream, ...) is an
      asynchronous operation.  The model records the launch of such an
      operation as an event and takes its outcome as an input, in the
      order in which the outcomes arrive; the calls of the caller's
      continuation [next] are events of the same log.
    - [this.server] is a collaborator of the class: its [path] resolver is
      a field of the record [Server], and its mutable fields [json] and
      [knownWrite] are threaded explicitly. *)

From Stdlib Require Import ZArith String Ascii List Bool Lia Sorted.
From stdpp Require Import base option list strings gmap pretty.

Local Open Scope string_scope.
Local Open Scope Z_scope.

(** ** JavaScript values and the lodash helpers the controller uses *)

Module Js.

#[warnings="-register-all"]
Inductive JsVal : Type :=
| VUndefined
| VNull
| VBool (b : bool)
| VNum (n : Z)
| VStr (s : string)
| VArr (xs : list JsVal)
| VObj (fields : gmap string JsVal)
| VFun.

(** [new Error(message)]; errors of the libraries carry a message too. *)
Record JsError : Type := MkError { message : string }.

Definition isArray (v : JsVal) : bool :=
  match v with VArr _ => true | _ => false end.

Definition isString (v : JsVal) : bool :=
  match v with VStr _ => true | _ => false end.

Definition isFunction (v : JsVal) : bool :=
  match v with VFun => true | _ => false end.

Definition isUndefined (v : JsVal) : bool :=
  match v with VUndefined => true | _ => false end.

(** Truthiness, as [||] and [!] see it. *)
Definition truthy (v : JsVal) : bool :=
  match v with
  | VUndefined | VNull => false
  | VBool b => b
  | VNum n => negb (n =? 0)%Z
  | VStr s => negb (String.eqb s EmptyString)
  | VArr _ | VObj _ | VFun => true
  end.

(** [a || b] *)
Definition jsOr (a b : JsVal) : JsVal := if truthy a then a else b.

(** [o.k]: a missing key reads as [undefined]; so does a property of a
    function or of a primitive.  Reading a property of [undefined] or
    [null] throws, which is [None] here. *)
Definition getProp (o : JsVal) (k : string) : option JsVal :=
  match o with
  | VUndefined | VNull => None
  | VObj fields => Some (default VUndefined (fields !! k))
  | _ => Some VUndefined
  end.

(** [a[i]] on an array: [undefined] past the end. *)
Definition index (xs : list JsVal) (i : nat) : JsVal :=
  default VUndefined (xs !! i).

(** [_.startsWith(s, target)] on strings. *)
Definition startsWith (s target : string) : bool := String.prefix target s.

(** [s.slice(n)] for [0 <= n]. *)
Definition sliceFrom (n : nat) (s : string) : string :=
  String.substring n (String.length s - n)%nat s.

(** [_.lastIndexOf(s, c)]: lodash scans the indices downwards from the
    length and compares [s[i] === c]; [-1] when [c] does not occur. *)
Fixpoint lastIndexOfFrom (i : Z) (s : string) (c : ascii) : Z :=
  match s with
  | EmptyString => -1
  | String a rest =>
      let later := lastIndexOfFrom (i + 1)%Z rest c in
      if (later =? -1)%Z then (if Ascii.eqb a c then i else -1) else later
  end.

Definition lastIndexOf (s : string) (c : ascii) : Z := lastIndexOfFrom 0 s c.

(** [s.substring(0, e)]: a negative end is clamped to 0. *)
Definition substringTo (e : Z) (s : string) : string :=
  String.substring 0 (Z.to_nat e) s.

(** [_.replace(s, pattern, '')] with a string pattern: the first
    occurrence of [pattern] is removed. *)
Fixpoint removeFirst (pattern s : string) : string :=
  if String.prefix pattern s then sliceFrom (String.length pattern) s
  else match s with
       | EmptyString => EmptyString
       | String a rest => String a (removeFirst pattern rest)
       end.

(** [String(v)], the coercion a string operation applies to its
    argument: an array prints its elements separated by commas, with
    [null] and [undefined] elements printed as nothing. *)
Fixpoint toString (v : JsVal) : string :=
  match v with
  | VUndefined => "undefined"
  | VNull => "null"
  | VBool b => if b then "true" else "false"
  | VNum n => pretty n
  | VStr s => s
  | VArr xs =>
      (fix join (ys : list JsVal) : string :=
         match ys with
         | [] => ""
         | y :: rest =>
             let shown := match y with
                          | VUndefined | VNull => ""
                          | _ => toString y
                          end in
             match rest with
             | [] => shown
             | _ :: _ => shown ++ "," ++ join rest
             end
         end) xs
  | VObj _ => "[object Object]"
  | VFun => "function () {}"
  end.

End Js.

Import Js.

(** ** The owning server instance *)

(** What the controller reads from [this.server] without changing it:
    the resolver [path] and the location of the watched configuration
    file.  [path] is applied to whatever value the controller passes,
    which is why it takes a [JsVal]; [path ()] (no argument, that is
    [undefined]) is the sandbox root. *)
Record Server : Type := {
  path : JsVal -> string;
  configLocation : string
}.

(** Modelled from the spec: [server.path], whose source
    (the server class) is not among the sources.  The spec describes it as
    a pure join that anchors the caller's relative path under the sandbox
    root; with no argument it is the root itself.  The argument is coerced
    to a string as a path join does. *)
Definition sandboxPath (root : string) (location : JsVal) : string :=
  match location with
  | VUndefined => root
  | _ => root ++ "/" ++ toString location
  end.

Definition sandbox (root : string) : Server :=
  {| path := sandboxPath root; configLocation := root ++ "/server.json" |}.

(** ** [isSelf] *)

Definition isSelf (srv : Server) (moveTo moveFrom : JsVal) : bool :=
  let target := path srv moveTo in
  let source := path srv moveFrom in
  if negb (startsWith target source) then false
  else
    let end_ := sliceFrom (String.length source) target in
    if String.eqb end_ "" then true
    else startsWith end_ "/".

(** The comparison [isSelf] makes once both paths are resolved:
    [target] is [source] itself or lies under it. *)
Definition nestedAt (target source : string) : bool :=
  if negb (startsWith target source) then false
  else
    let end_ := sliceFrom (String.length source) target in
    if String.eqb end_ "" then true else startsWith end_ "/".

(** ** Asynchronous operations and the event log *)

(** The operations the controller hands over and whose outcome arrives
    later. *)
Inductive Op : Type :=
| FsMove (src dst : string)
    (** [Fs.move(src, dst, { clobber: false }, cb)] *)
| Unpack (archive dir : string)
    (** [decompressEngine(archive, dir, { strip: 1 })] *)
| PackTree (dir archive : string)
    (** [Tar.pack(dir).pipe(Fs.createWriteStream(archive))] *)
| PackEntries (dir : string) (entries : list string) (archive : string)
    (** [Tar.pack(dir, { entries }).pipe(Fs.createWriteStream(archive))] *).

Inductive Event : Type :=
| Launch (k : nat) (op : Op)           (** operation [k] is handed over *)
| Settle (k : nat) (r : option JsError) (** its outcome arrives *)
| Push (entry : string)                (** [FileEntries.push(entry)] *)
| Next (err : option JsError) (value : option string)
    (** the caller's continuation is called: [next(err, value)] *).

(** The outcomes that arrive, in arrival order: which operation, and its
    error if it failed. *)
Definition Schedule : Type := list (nat * option JsError).

(** ** [Async.eachOfLimit] (async 2.4.1, the version of package.json) *)

Module Async.

(** How a piece of user code hands control back: through the callback
    the library gave it, or by calling the outer [next] itself. *)
Inductive Exit : Type :=
| ViaCallback (e : option JsError)
| ViaNext (e : option JsError).

(** What an iteratee does with one element before it returns: it either
    finishes on the spot (after the synchronous effects [pre]), or it
    launches an operation and returns. *)
Inductive Ctl : Type :=
| Now (pre : list Event) (x : Exit)
| Start (op : Op).

(** The variables of the closure of [_eachOfLimit]: the iterator over the
    collection ([items]), [running], [done]; whether the [once]-wrapped
    final callback has been called (and with which error); with the
    operations in flight and the log. *)
Record St : Type := MkSt {
  items : list (nat * JsVal);
  inflight : list nat;
  running : Z;
  done : bool;
  fired : option (option JsError);
  log : list Event
}.

Definition emit (es : list Event) (st : St) : St :=
  MkSt (items st) (inflight st) (running st) (done st) (fired st)
       (log st ++ es)%list.

Definition setItems (its : list (nat * JsVal)) (st : St) : St :=
  MkSt its (inflight st) (running st) (done st) (fired st) (log st).

Definition setInflight (ks : list nat) (st : St) : St :=
  MkSt (items st) ks (running st) (done st) (fired st) (log st).

Definition addRunning (d : Z) (st : St) : St :=
  MkSt (items st) (inflight st) (running st + d) (done st) (fired st) (log st).

Definition setDone (st : St) : St :=
  MkSt (items st) (inflight st) (running st) true (fired st) (log st).

Section EachOfLimit.

Variable limit : Z.
(** the iteratee, applied to a key and the value at that key *)
Variable iteratee : nat -> JsVal -> Ctl.
(** the handler the iteratee attaches to the operation it launched *)
Variable completion : option JsError -> Exit.
(** the final callback given to the library *)
Variable final : option JsError -> list Event.

(** [callback = once(callback)] *)
Definition callback (err : option JsError) (st : St) : St :=
  match fired st with
  | Some _ => st
  | None =>
      emit (final err)
        (MkSt (items st) (inflight st) (running st) (done st) (Some err)
              (log st))
  end.

(** [iterateeCallback], with [replenish] as a parameter since the two
    functions call each other. *)
Definition iterateeCallback (replenish : St -> St)
    (err : option JsError) (st : St) : St :=
  let st := addRunning (-1) st in
  match err with
  | Some e => callback (Some e) (setDone st)
  | None =>
      if done st && (running st <=? 0)
      then callback None (setDone st)
      else replenish st
  end.

Definition loopTest (st : St) : bool :=
  (running st <? limit) && negb (done st).

(** [replenish]: the [while] loop over the iterator.  An iteratee that
    calls its callback before returning re-enters [replenish]; when that
    inner call returns the loop test is false (lemma [replenish_exits]
    below), so the enclosing loop stops there too. *)
Fixpoint replenishFrom (its : list (nat * JsVal)) (st : St) : St :=
  if loopTest st then
    match its with
    | [] =>
        let st := setDone (setItems [] st) in
        if running st <=? 0 then callback None st else st
    | (k, v) :: rest =>
        let st := addRunning 1 (setItems rest st) in
        match iteratee k v with
        | Start op =>
            replenishFrom rest
              (emit [Launch k op] (setInflight (inflight st ++ [k])%list st))
        | Now pre (ViaNext e) =>
            replenishFrom rest (emit (pre ++ [Next e None])%list st)
        | Now pre (ViaCallback e) =>
            iterateeCallback (replenishFrom rest) e (emit pre st)
        end
    end
  else setItems its st.

Definition replenish (st : St) : St := replenishFrom (items st) st.

(** The outcome of operation [k] arrives. *)
Definition settle (k : nat) (r : option JsError) (st : St) : St :=
  if bool_decide (k ∈ inflight st) then
    let st := emit [Settle k r]
                (setInflight (filter (λ j, j ≠ k) (inflight st)) st) in
    match completion r with
    | ViaCallback e => iterateeCallback replenish e st
    | ViaNext e => emit [Next e None] st
    end
  else st.

Definition settleAll (sched : Schedule) (st : St) : St :=
  fold_left (λ acc kr, settle kr.1 kr.2 acc) sched st.

(** [eachOfLimit(coll, limit, iteratee, final)] up to the point where
    it returns to its caller. *)
Definition eachOfLimit (coll : list JsVal) : St :=
  let st := MkSt (imap (λ i v, (i, v)) coll) [] 0 false None [] in
  if limit <=? 0 then callback None st else replenish st.

(** The whole run: the call, then the outcomes as they arrive. *)
Definition runEach (coll : list JsVal) (sched : Schedule) : St :=
  settleAll sched (eachOfLimit coll).

End EachOfLimit.

End Async.

Import Async.

(** An operation launched outside of any batch: it is operation 0, and
    [handler] is what its completion handler does with the outcome. *)
Definition single (op : Op) (handler : option JsError -> list Event)
    (sched : Schedule) : list Event :=
  Launch 0 op ::
  match filter (λ kr, kr.1 = 0%nat) sched with
  | (_, r) :: _ => Settle 0 r :: handler r
  | [] => []
  end.

(** ** [move] *)

Definition selfMove : JsError :=
  MkError "You cannot move a file or folder into itself.".

Definition typeMismatch : JsError :=
  MkError "Values passed to move function must be of the same type (string, string) or (array, array).".

Definition lengthMismatch : JsError :=
  MkError "The number of starting values does not match the number of ending values.".

(** The handler given to [Fs.move] in the batch:
    [err => { if (err && !_.startsWith(err.message, 'EEXIST:')) return callback(err); return callback(); }] *)
Definition moveDone (r : option JsError) : Exit :=
  match r with
  | Some err =>
      if negb (startsWith (message err) "EEXIST:")
      then ViaCallback (Some err)
      else ViaCallback None
  | None => ViaCallback None
  end.

(** The iteratee of the batch.  [initial] and [ending] are the two arrays
    of the call, [value] is [initial[key]]. *)
Definition moveEach (srv : Server) (initial ending : list JsVal)
    (key : nat) (value : JsVal) : Ctl :=
  if isUndefined (index ending key) then
    Now [] (ViaCallback (Some lengthMismatch))
  else if isSelf srv (VArr ending) (VArr initial) then
    Now [] (ViaNext (Some selfMove))
  else
    Start (FsMove (path srv value) (path srv (index ending key))).

Definition move (srv : Server) (initial ending : JsVal) (sched : Schedule)
    : list Event :=
  if negb (isArray initial) && negb (isArray ending) then
    if isSelf srv ending initial then [Next (Some selfMove) None]
    else
      single (FsMove (path srv initial) (path srv ending))
        (λ r, match moveDone r with
              | ViaCallback e | ViaNext e => [Next e None]
              end)
        sched
  else if negb (isArray initial) || negb (isArray ending) then
    [Next (Some typeMismatch) None]
  else
    match initial, ending with
    | VArr from, VArr to =>
        log (runEach 5 (moveEach srv from to) moveDone
               (λ err, [Next err None]) from sched)
    | _, _ => []
    end.

(** ** [decompress] *)

Definition invalidDatatype : JsError :=
  MkError "Invalid datatype passed to decompression function.".

(** [fromFile.substring(0, _.lastIndexOf(fromFile, '/'))] *)
Definition dirOf (fromFile : string) : string :=
  substringTo (lastIndexOf fromFile "/") fromFile.

(** [decompressEngine(fromFile, toDir, { strip: 1 })] for one archive *)
Definition unpackOp (srv : Server) (file : JsVal) : Op :=
  let fromFile := path srv file in
  Unpack fromFile (dirOf fromFile).

(** The two handlers chained on the promise of the batch:
    [.then(() => { next(); }).catch(callback)] *)
Definition unpackDone (r : option JsError) : Exit :=
  match r with
  | None => ViaNext None
  | Some err => ViaCallback (Some err)
  end.

Definition decompress (srv : Server) (files : JsVal) (sched : Schedule)
    : list Event :=
  if negb (isArray files) then
    single (unpackOp srv files) (λ r, [Next r None]) sched
  else if isArray files then
    match files with
    | VArr archives =>
        log (runEach 5 (λ _ file, Start (unpackOp srv file)) unpackDone
               (λ err, [Next err None]) archives sched)
    | _ => []
    end
  else
    [Next (Some invalidDatatype) None].

(** ** [compress] *)

Definition toNotString : JsError :=
  MkError "The to field must be a string for the folder in which the file should be saved.".

Definition selfCompress : JsError :=
  MkError "Unable to compress folder into itself.".

Definition noValidEntries : JsError :=
  MkError "None of the files passed to the command were valid.".

(** [`ptdlfm.${RandomString.generate(8)}.tar`]; [token] is the random
    string of this call. *)
Definition saveAsName (token : string) : string :=
  "ptdlfm." ++ token ++ ".tar".

(** The [FileEntries] array, read back from the pushes of the log. *)
Definition entriesOf (evs : list Event) : list string :=
  omap (λ ev, match ev with Push entry => Some entry | _ => None end) evs.

Section Compress.

(** [Path.join] of Node *)
Variable join : string -> string -> string.

Variable srv : Server.

(** The iteratee of [Async.eachLimit(files, 5, ...)]:
    a source that would contain the archive is skipped, the others are
    pushed with the sandbox root removed from their resolved path. *)
Definition compressEach (to : JsVal) (_ : nat) (file : JsVal) : Ctl :=
  if isSelf srv to file then Now [] (ViaCallback None)
  else
    Now [Push (removeFirst (path srv VUndefined) (path srv file))]
        (ViaCallback None).

(** [token] is the random part of the archive name; with a single
    source or with entries to pack, the tar stream is the one operation
    in flight, whose outcome is its ['error'] or its ['close']. *)
Definition compress (files to : JsVal) (token : string) (sched : Schedule)
    : list Event :=
  if negb (isString to) then [Next (Some toNotString) None]
  else
    let SaveAsName := saveAsName token in
    if negb (isArray files) then
      if isSelf srv to files then [Next (Some selfCompress) None]
      else
        single (PackTree (path srv files) (join (path srv to) SaveAsName))
          (λ r, match r with
                | Some err => [Next (Some err) None]
                | None => [Next None (Some SaveAsName)]
                end)
          sched
    else if isArray files then
      match files with
      | VArr sources =>
          (* first task of the series *)
          let st := eachOfLimit 5 (compressEach to) (λ _, []) sources in
          let FileEntries := entriesOf (log st) in
          match fired st with
          | None => log st
          | Some (Some err) => (log st ++ [Next (Some err) (Some SaveAsName)])%list
          | Some None =>
              (* second task of the series *)
              if bool_decide (FileEntries = []) then
                (log st ++ [Next (Some noValidEntries) None])%list
              else
                (log st ++
                 single (PackEntries (path srv VUndefined) FileEntries
                           (join (path srv to) SaveAsName))
                   (λ r, [Next r (Some SaveAsName)])
                   sched)%list
          end
      | _ => []
      end
    else [Next (Some invalidDatatype) None].

End Compress.

(** The statement of what a call with several sources packs: the sources
    that are not skipped, and the entry of a source. *)
Definition kept (srv : Server) (to : JsVal) (sources : list JsVal)
    : list JsVal :=
  filter (λ f, isSelf srv to f = false) sources.

Definition entryOf (srv : Server) (file : JsVal) : string :=
  removeFirst (path srv VUndefined) (path srv file).

(** ** [copy] *)

(** The call [Fs.copy(src, dst, { clobber, preserveTimestamps }, next)] *)
Record CopyCall : Type := MkCopy {
  copySrc : string;
  copyDst : string;
  clobber : JsVal;
  preserveTimestamps : JsVal
}.

(** [None] when reading a property of [opts] throws.  A function in the
    place of [opts] is the continuation of a call without options. *)
Definition copy (srv : Server) (file newpath opts : JsVal) : option CopyCall :=
  let opts := if isFunction opts then VObj ∅ else opts in
  c ← getProp opts "clobber";
  t ← getProp opts "timestamps";
  Some (MkCopy (path srv file) (path srv newpath)
          (jsOr c (VBool false)) (jsOr t (VBool false))).

(** ** The watcher of the configuration file, and [write] *)

Module Watcher.

(** The two mutable fields of [this.server]. *)
Record Instance : Type := MkInstance {
  json : JsVal;
  knownWrite : bool
}.

Inductive Effect : Type :=
| LogDebug (msg : string)
| LogWarn (err : JsError) (msg : string)
| LogFatal (err : JsError) (msg : string)
| ReadJson (location : string)
| WriteJson (location : string) (object : JsVal)
| OutputFile (location : string) (data : string).

(** Handlers run on the instance and log what they ask for. *)
Definition M (A : Type) : Type := Instance -> A * Instance * list Effect.

#[local] Instance M_ret : MRet M := λ A (a : A) st, (a, st, []).

#[local] Instance M_bind : MBind M := λ A B (f : A -> M B) (m : M A) st,
  let '(a, st1, e1) := m st in
  let '(b, st2, e2) := f a st1 in
  (b, st2, (e1 ++ e2)%list).

Definition effect (e : Effect) : M unit := λ st, (tt, st, [e]).
Definition getKnownWrite : M bool := λ st, (knownWrite st, st, []).
Definition getJson : M JsVal := λ st, (json st, st, []).
Definition setKnownWrite (b : bool) : M unit :=
  λ st, (tt, MkInstance (json st) b, []).
Definition setJson (object : JsVal) : M unit :=
  λ st, (tt, MkInstance object (knownWrite st), []).

Section Handlers.

Variable srv : Server.

(** The ['change'] handler up to its return; the result tells whether
    [Fs.readJson] was started. *)
Definition onChange : M bool :=
  known ← getKnownWrite;
  reading ← (if negb known then
               effect (LogDebug "Detected remote file change, updating JSON object correspondingly.");;
               effect (ReadJson (configLocation srv));;
               (mret true : M bool)
             else (mret false : M bool));
  setKnownWrite false;;
  (mret reading : M bool).

(** The callback of [Fs.readJson]; the result tells whether
    [Fs.writeJson] was started. *)
Definition onReadJson (r : JsError + JsVal) : M bool :=
  match r with
  | inl err =>
      effect (LogWarn err "An error was detected with the changed file, attempting to undo the changes.");;
      setKnownWrite true;;
      object ← getJson;
      effect (WriteJson (configLocation srv) object);;
      (mret true : M bool)
  | inr object => setJson object;; (mret false : M bool)
  end.

(** The callback of [Fs.writeJson] *)
Definition onWriteJson (writeErr : option JsError) : M unit :=
  match writeErr with
  | None => effect (LogDebug "Successfully undid those remote changes.")
  | Some err =>
      effect (LogFatal err "Unable to undo those changes, this could break the daemon badly.")
  end.

(** One change notification together with the callbacks it leads to:
    [r] is what [Fs.readJson] comes back with if it is started, [w] what
    [Fs.writeJson] comes back with if it is started. *)
Definition changeEvent (r : JsError + JsVal) (w : option JsError) : M unit :=
  onChange ≫= λ reading : bool,
    if reading then
      onReadJson r ≫= λ writing : bool,
        if writing then onWriteJson w else mret tt
    else mret tt.

(** [write(file, data, next)] up to the launch of [Fs.outputFile] *)
Definition write (file : JsVal) (data : string) : M unit :=
  setKnownWrite true;;
  effect (OutputFile (path srv file) data).

End Handlers.

End Watcher.

(** ** Files on disk: [read], [readEnd] *)

Inductive Kind : Type := KFile | KDirectory | KOther.

(** What the controller can observe of the entry at a path: its kind,
    its bytes and its time stamps (milliseconds since the epoch). *)
Record Node : Type := MkNode {
  kind : Kind;
  bytes : list Byte.byte;
  ctime : Z;
  mtime : Z;
  birthtime : Z
}.

(** A disk answers a path with the entry found there, or with the error
    the file system raises for it (no such entry, no permission, a loop
    of links, ...). *)
Definition Disk : Type := string -> JsError + Node.

(** The [fs.Stats] object, with its predicates as fields. *)
Record Stats : Type := MkStats {
  isFile : bool;
  isDirectory : bool;
  isSymbolicLink : bool;
  size : Z;
  statCtime : Z;
  statMtime : Z;
  statBirthtime : Z
}.

Definition statsOf (n : Node) : Stats :=
  MkStats (match kind n with KFile => true | _ => false end)
          (match kind n with KDirectory => true | _ => false end)
          false
          (Z.of_nat (length (bytes n)))
          (ctime n) (mtime n) (birthtime n).

(** [Fs.stat(p, cb)]: the error of the file system, or the stats of the
    entry. *)
Definition fsStat (disk : Disk) (p : string) : JsError + Stats :=
  match disk p with
  | inl err => inl err
  | inr n => inr (statsOf n)
  end.

Definition notAFile : JsError :=
  MkError "The file requested does not appear to be a file.".

Definition tooLarge : JsError :=
  MkError "This file is too large to open.".

(** *** Bytes to text

    Both operations hand text to the caller: [read] asks [Fs.readFile]
    for ['utf8'], and [readEnd] appends every chunk of the stream, a
    [Buffer], to a string, which converts it with [toString()], that is
    as UTF-8.  A text is the list of its UTF-16 code units.  The decoder
    is the one of the Encoding Standard: a byte that cannot start or
    continue a character gives U+FFFD, and so does a character that is
    cut short by the end of the bytes. *)

Definition byteVal (b : Byte.byte) : Z := Z.of_N (Byte.to_N b).

Definition replacement : Z := 65533.

(** The code units of a code point: itself, or a surrogate pair. *)
Definition units (cp : Z) : list Z :=
  if cp <? 65536 then [cp]
  else [55296 + (cp - 65536) / 1024; 56320 + (cp - 65536) mod 1024].

(** A character in progress: the bits collected so far, how many bytes
    are still to come, and the range allowed for the next byte. *)
Record Partial : Type := MkPartial {
  codePoint : Z;
  needed : nat;
  lower : Z;
  upper : Z
}.

(** A byte met between two characters. *)
Definition lead (b : Z) : list Z * option Partial :=
  if b <=? 127 then ([b], None)
  else if (194 <=? b) && (b <=? 223)
  then ([], Some (MkPartial (Z.land b 31) 1 128 191))
  else if (224 <=? b) && (b <=? 239)
  then ([], Some (MkPartial (Z.land b 15) 2
                    (if b =? 224 then 160 else 128)
                    (if b =? 237 then 159 else 191)))
  else if (240 <=? b) && (b <=? 244)
  then ([], Some (MkPartial (Z.land b 7) 3
                    (if b =? 240 then 144 else 128)
                    (if b =? 244 then 143 else 191)))
  else ([replacement], None).

(** One byte: the code units it completes and the character left in
    progress.  A byte that cannot continue the character in progress ends
    it with U+FFFD and is then read as a first byte. *)
Definition step (st : option Partial) (b : Z) : list Z * option Partial :=
  match st with
  | None => lead b
  | Some p =>
      if (lower p <=? b) && (b <=? upper p) then
        let cp := Z.lor (Z.shiftl (codePoint p) 6) (Z.land b 63) in
        match needed p with
        | S (S k) => ([], Some (MkPartial cp (S k) 128 191))
        | _ => (units cp, None)
        end
      else
        let (out, st') := lead b in (replacement :: out, st')
  end.

Fixpoint decodeFrom (st : option Partial) (l : list Byte.byte) : list Z :=
  match l with
  | [] => match st with None => [] | Some _ => [replacement] end
  | b :: l' =>
      let (out, st') := step st (byteVal b) in
      (out ++ decodeFrom st' l')%list
  end.

(** [buffer.toString('utf8')] *)
Definition utf8Decode (l : list Byte.byte) : list Z := decodeFrom None l.

(** The character in progress after the bytes of [l]. *)
Fixpoint stateAfter (st : option Partial) (l : list Byte.byte)
    : option Partial :=
  match l with
  | [] => st
  | b :: l' => stateAfter (snd (step st (byteVal b))) l'
  end.

(** [l] ends between two characters. *)
Definition wholeChars (l : list Byte.byte) : bool :=
  match stateAfter None l with None => true | Some _ => false end.

(** [Fs.readFile(p, 'utf8', cb)], called on regular files only. *)
Definition fsReadFile (disk : Disk) (p : string) : JsError + list Z :=
  match disk p with
  | inl err => inl err
  | inr n => inr (utf8Decode (bytes n))
  end.

(** The read stream hands its bytes over in chunks of at most
    [highWaterMark] bytes (64 KiB for a file stream). *)
Definition highWaterMark : nat := Z.to_nat 65536.

Fixpoint chunksOf (fuel n : nat) (l : list Byte.byte) : list (list Byte.byte) :=
  match fuel with
  | O => []
  | S fuel' =>
      match l with
      | [] => []
      | _ :: _ => take n l :: chunksOf fuel' n (drop n l)
      end
  end.

(** [Fs.createReadStream(p, opts)] on a regular file: the ['data']
    chunks up to ['end'].  [opts] is [{}] ([None]) or [{ start, end }];
    both bounds are inclusive and the stream stops at the end of the
    file.  The result is [None] when the constructor throws, which it
    does for [start > end]. *)
Definition createReadStream (content : list Byte.byte) (opts : option (Z * Z))
    : option (list (list Byte.byte)) :=
  match opts with
  | None => Some (chunksOf (length content) highWaterMark content)
  | Some (start, end_) =>
      if start >? end_ then None
      else
        let range := take (Z.to_nat (end_ - start + 1))
                          (drop (Z.to_nat start) content) in
        Some (chunksOf (length range) highWaterMark range)
  end.

Inductive ReadOutcome : Type :=
| ReadFailed (err : JsError)   (** [next(err)] *)
| ReadText (text : list Z)     (** [next(null, text)] *)
| ReadThrew.                   (** an exception, [next] is not called *)

(** [read(file, next)] *)
Definition read (srv : Server) (disk : Disk) (file : JsVal) : ReadOutcome :=
  match fsStat disk (path srv file) with
  | inl err => ReadFailed err
  | inr stat =>
      if negb (isFile stat) then ReadFailed notAFile
      else if size stat >? 10000000 then ReadFailed tooLarge
      else match fsReadFile disk (path srv file) with
           | inl err => ReadFailed err
           | inr text => ReadText text
           end
  end.

(** [readEnd(file, bytes, next)].  [maxBytes] is [None] for the call
    [readEnd(file, next)], where the second argument is the continuation
    and the bound becomes 80000.  [lines] starts empty and every chunk is
    converted to text on its own and appended to it.  The stream has no
    ['error'] listener, so an error of the stream is an exception. *)
Definition readEnd (srv : Server) (disk : Disk) (file : JsVal)
    (maxBytes : option Z) : ReadOutcome :=
  let bytes_ := default 80000 maxBytes in
  match fsStat disk (path srv file) with
  | inl err => ReadFailed err
  | inr stat =>
      if negb (isFile stat) then ReadFailed notAFile
      else
        let opts := if size stat >? bytes_
                    then Some (size stat - bytes_, size stat)
                    else None in
        match disk (path srv file) with
        | inl _ => ReadThrew
        | inr n =>
            match createReadStream (bytes n) opts with
            | None => ReadThrew
            | Some chunks =>
                ReadText
                  (fold_left (λ lines data, lines ++ utf8Decode data)%list
                             chunks [])
            end
        end
  end.

(** An error of the file system, for the examples. *)
Definition enoent : JsError :=
  MkError "ENOENT: no such file or directory".

(** A disk with one log file of five bytes, for examples. *)
Definition sampleDisk : Disk :=
  λ p, if String.eqb p "/srv/latest.log"
       then inr (MkNode KFile [Byte.x61; Byte.x62; Byte.x63; Byte.x64; Byte.x65]
                        0 0 0)
       else inl enoent.


(** ** [stat] and [directory] *)

(** The record both operations build for an entry. *)
Record FileMeta : Type := MkMeta {
  name : string;
  created : Z;
  modified : Z;
  metaSize : Z;
  directory_ : bool;
  file_ : bool;
  symlink : bool;
  mime : string
}.

(** What [Mime.detectFile] calls back with: an error, or the detected
    type (the empty string stands for a result that is not truthy). *)
Definition MimeOutcome : Type := (JsError + string)%type.

(** [result || 'unknown'], with [result] undefined after an error *)
Definition mimeOr (result : option string) : string :=
  match result with
  | Some s => if String.eqb s "" then "unknown" else s
  | None => "unknown"
  end.

Definition resultOf (m : MimeOutcome) : option string :=
  match m with inl _ => None | inr s => Some s end.

Inductive StatCall : Type :=
| StatNext (err : option JsError) (meta : option FileMeta)
| StatThrow.  (** reading a property of the missing [stat] throws *)

Section StatAndDirectory.

(** [Path.parse(p).base] of Node *)
Variable base : string -> string.
(** [_.lowerCase] of lodash *)
Variable lowerCase : string -> string.

Variable srv : Server.

(** [stat(file, next)]: [s] is what [Fs.stat] calls back with, [m] what
    [Mime.detectFile] calls back with. *)
Definition stat (file : JsVal) (s : JsError + Stats) (m : MimeOutcome)
    : list StatCall :=
  let first := match s with
               | inl err => [StatNext (Some err) None]
               | inr _ => []
               end in
  (first ++
   match s with
   | inl _ => [StatThrow]
   | inr st =>
       [StatNext None
          (Some (MkMeta (base (path srv file)) (statCtime st) (statMtime st)
                   (size st) (isDirectory st) (isFile st)
                   (isSymbolicLink st) (mimeOr (resultOf m))))]
   end)%list.

(** *** [directory] *)

Definition notADirectory : JsError :=
  MkError "The path requested is not a valid directory on the system.".

(** [_.sortBy(responseFiles, [o => _.lowerCase(o.name), 'created'])]:
    a stable sort on the pair of keys, strings compared code unit by
    code unit. *)
Definition keyLe (a b : FileMeta) : bool :=
  match String.compare (lowerCase (name a)) (lowerCase (name b)) with
  | Lt => true
  | Gt => false
  | Eq => created a <=? created b
  end.

Fixpoint insertSorted (x : FileMeta) (l : list FileMeta) : list FileMeta :=
  match l with
  | [] => [x]
  | y :: rest =>
      if keyLe y x then y :: insertSorted x rest else x :: y :: rest
  end.

Definition sortBy (l : list FileMeta) : list FileMeta :=
  fold_left (λ acc x, insertSorted x acc) l [].

(** The outcome of one of the two tasks [Async.auto] starts for a
    child: [do_stat] or [do_mime]. *)
Inductive TaskOutcome : Type :=
| StatDone (r : JsError + Stats)
| MimeDone (r : MimeOutcome).

(** The closure of [Async.auto] for one child: the [results] of the two
    tasks, which of them are still running, [hasError], and whether the
    [once]-wrapped callback ([eachCallback]) has been called. *)
Record Auto : Type := MkAuto {
  item : string;
  do_stat : option Stats;
  do_mime : option string;
  statRunning : bool;
  mimeRunning : bool;
  hasError : bool;
  autoFired : bool
}.

(** A call [next(err, files)] *)
Definition DirCall : Type := (option JsError * list FileMeta)%type.

(** The closure of [Async.each] and of [directory] itself. *)
Record DirSt : Type := MkDirSt {
  autos : list Auto;
  completed : nat;
  eachFired : bool;
  responseFiles : list FileMeta;
  calls : list DirCall
}.

(** The last function of the waterfall:
    [err => next(err, _.sortBy(responseFiles, ...))] *)
Definition finish (err : option JsError) (st : DirSt) : DirSt :=
  MkDirSt (autos st) (completed st) (eachFired st) (responseFiles st)
          (calls st ++ [(err, sortBy (responseFiles st))])%list.

(** The [once]-wrapped callback of [Async.each], which the waterfall
    continues with [finish]. *)
Definition eachFinal (err : option JsError) (st : DirSt) : DirSt :=
  if eachFired st then st
  else finish err
         (MkDirSt (autos st) (completed st) true (responseFiles st) (calls st)).

(** [iteratorCallback] of [Async.each] *)
Definition iteratorCallback (err : option JsError) (st : DirSt) : DirSt :=
  match err with
  | Some e => eachFinal (Some e) st
  | None =>
      let st := MkDirSt (autos st) (S (completed st)) (eachFired st)
                        (responseFiles st) (calls st) in
      if bool_decide (completed st = length (autos st))
      then eachFinal None st
      else st
  end.

Definition setAuto (i : nat) (a : Auto) (st : DirSt) : DirSt :=
  MkDirSt (<[i := a]> (autos st)) (completed st) (eachFired st)
          (responseFiles st) (calls st).

(** The [once]-wrapped callback of [Async.auto] for child [i], which is
    [eachCallback]. *)
Definition autoCallback (i : nat) (a : Auto) (err : option JsError)
    (st : DirSt) : DirSt :=
  if autoFired a then setAuto i a st
  else
    iteratorCallback err
      (setAuto i
         (MkAuto (item a) (do_stat a) (do_mime a) (statRunning a)
                 (mimeRunning a) (hasError a) true)
         st).

(** [do_push]: the record of the child is appended to [responseFiles]. *)
Definition do_push (a : Auto) (s : Stats) (st : DirSt) : DirSt :=
  MkDirSt (autos st) (completed st) (eachFired st)
          (responseFiles st ++
           [MkMeta (item a) (statBirthtime s) (statMtime s) (size s)
                   (isDirectory s) (isFile s) (isSymbolicLink s)
                   (mimeOr (do_mime a))])%list
          (calls st).

(** A task of child [i] called back without error and its result is
    stored in [a]: [do_push] runs once both results are there, unless a
    task failed before (the listeners are dropped then); the callback of
    [Async.auto] is called when nothing is running and nothing is ready. *)
Definition taskComplete (i : nat) (a : Auto) (st : DirSt) : DirSt :=
  if statRunning a || mimeRunning a then setAuto i a st
  else if hasError a then autoCallback i a None st
  else
    match do_stat a with
    | Some s => autoCallback i a None (do_push a s st)
    | None => autoCallback i a None st
    end.

(** A task of child [i] called back with an error. *)
Definition taskFailed (i : nat) (a : Auto) (err : JsError) (st : DirSt)
    : DirSt :=
  autoCallback i
    (MkAuto (item a) (do_stat a) (do_mime a) (statRunning a)
            (mimeRunning a) true (autoFired a))
    (Some err) st.

Definition settleTask (i : nat) (o : TaskOutcome) (st : DirSt) : DirSt :=
  match autos st !! i with
  | None => st
  | Some a =>
      match o with
      | StatDone r =>
          if negb (statRunning a) then st
          else
            let a := MkAuto (item a) (do_stat a) (do_mime a) false
                            (mimeRunning a) (hasError a) (autoFired a) in
            match r with
            | inl err => taskFailed i a err st
            | inr s =>
                taskComplete i
                  (MkAuto (item a) (Some s) (do_mime a) (statRunning a)
                          (mimeRunning a) (hasError a) (autoFired a))
                  st
            end
      | MimeDone r =>
          if negb (mimeRunning a) then st
          else
            let a := MkAuto (item a) (do_stat a) (do_mime a) (statRunning a)
                            false (hasError a) (autoFired a) in
            match r with
            | inl err => taskFailed i a err st
            | inr result =>
                taskComplete i
                  (MkAuto (item a) (do_stat a) (Some result) (statRunning a)
                          (mimeRunning a) (hasError a) (autoFired a))
                  st
            end
      end
  end.

(** [directory(path, next)]: [s] is what [Fs.stat] of the directory
    calls back with, [listing] what [Fs.readdir] calls back with, and
    [sched] the outcomes of the tasks of the children in the order in
    which they arrive.  The result is the calls of [next]. *)
Definition directory (dir : JsVal) (s : JsError + Stats)
    (listing : JsError + list string) (sched : list (nat * TaskOutcome))
    : list DirCall :=
  let st0 := MkDirSt [] 0 false [] [] in
  match s with
  | inl err => calls (finish (Some err) st0)
  | inr st =>
      if negb (isDirectory st) then calls (finish (Some notADirectory) st0)
      else
        match listing with
        | inl err => calls (finish (Some err) st0)
        | inr files =>
            let started :=
              MkDirSt (map (λ f, MkAuto f None None true true false false) files)
                      0 false [] [] in
            let started :=
              if bool_decide (length files = 0%nat)
              then eachFinal None started else started in
            calls (fold_left (λ acc io, settleTask io.1 io.2 acc) sched started)
        end
  end.

End StatAndDirectory.

(** ** Reading an event log *)

Definition isLaunch (ev : Event) : bool :=
  match ev with Launch _ _ => true | _ => false end.

Definition isNext (ev : Event) : bool :=
  match ev with Next _ _ => true | _ => false end.

(** the operations launched, in order *)
Definition launched (evs : list Event) : list Event :=
  List.filter isLaunch evs.

(** how many times the caller's continuation was called *)
Definition nextCalls (evs : list Event) : nat :=
  length (List.filter isNext evs).

(** An outcome [Fs.move] treats as a success: no error, or an error whose
    message starts with [EEXIST:]. *)
Definition benign (r : option JsError) : bool :=
  match r with
  | None => true
  | Some err => startsWith (message err) "EEXIST:"
  end.

(** The keys of the operations launched and not yet settled, read off a
    log from left to right. *)
Definition pendingStep (acc : list nat) (ev : Event) : list nat :=
  match ev with
  | Launch k _ => (acc ++ [k])%list
  | Settle k _ => filter (λ j, j ≠ k) acc
  | _ => acc
  end.

Definition pending (evs : list Event) : list nat :=
  fold_left pendingStep evs [].

(** ** Invariants of a batch *)

(** the final callback of both batches: [next] itself *)
Definition viaNext : option JsError -> list Event := λ err, [Next err None].

(** the counter [running] stays between the number of operations in
    flight and the limit *)
Definition capped (limit : Z) (st : St) : Prop :=
  Z.of_nat (length (inflight st)) <= running st <= limit.

(** the field [inflight] is what the log says *)
Definition logged (st : St) : Prop := inflight st = pending (log st).

(** the calls of [next] in the log are the one call of the final
    callback, if it was made *)
Definition reportedOnce (st : St) : Prop :=
  List.filter isNext (log st)
  = match fired st with
    | Some err => [Next err None]
    | None => []
    end
  /\ (fired st <> None -> done st = true).

(** how many operations of a log settled without error *)
Definition okSettled (evs : list Event) : nat :=
  length (List.filter (λ ev, match ev with Settle _ None => true | _ => false end)
                      evs).

(** the iteratee of the batch of [decompress], by name *)
Definition unpackEach (srv : Server) (_ : nat) (file : JsVal) : Ctl :=
  Start (unpackOp srv file).

(** in the batch of [decompress], the calls of [next] are one per
    operation that settled without error, and the one call of the final
    callback, if it was made *)
Definition counted (st : St) : Prop :=
  nextCalls (log st)
  = (okSettled (log st) + match fired st with Some _ => 1 | None => 0 end)%nat.

(** the operation the batch of [move] launches for the pair at a key *)
Definition moveOp (srv : Server) (ending : list JsVal) (kv : nat * JsVal) : Op :=
  FsMove (path srv kv.2) (path srv (index ending kv.1)).

(** The state of a batch of [move] in which nothing has failed:
    [running] counts the operations in flight, the keys in flight and the
    keys still to come are distinct, every element still to come will be
    launched, [done] is only set once the array is exhausted, the final
    callback has been called, without error, exactly if the batch is done
    and nothing is running, and the launches so far followed by the ones
    to come are the launches of all pairs in order. *)
Definition orderly (srv : Server) (initial ending : list JsVal) (st : St)
    : Prop :=
  running st = Z.of_nat (length (inflight st)) /\
  NoDup (inflight st ++ map fst (items st)) /\
  Forall (λ kv, moveEach srv initial ending kv.1 kv.2
                = Start (moveOp srv ending kv)) (items st) /\
  (done st = true -> items st = []) /\
  fired st = (if done st && (running st =? 0) then Some None else None) /\
  (launched (log st) ++
   map (λ kv, Launch kv.1 (moveOp srv ending kv)) (items st))%list
  = imap (λ k v, Launch k (moveOp srv ending (k, v))) initial.

(** ** Reading the calls of [directory] *)

(** the order [_.sortBy] establishes, as a relation *)
Definition keyOrder (lowerCase : string -> string) (a b : FileMeta) : Prop :=
  keyLe lowerCase a b = true.

(** What one outcome can do to the calls of [next]: nothing, or, if the
    final callback had not been called, one more call, whose list is a
    sorted copy of the records pushed so far. *)
Definition dirStep (lowerCase : string -> string) (st st' : DirSt) : Prop :=
  (calls st' = calls st /\ eachFired st' = eachFired st) \/
  (eachFired st = false /\ eachFired st' = true /\
   exists err l, calls st' = (calls st ++ [(err, sortBy lowerCase l)])%list).

(** the state of [directory] once the children are known *)
Definition dirStarted (files : list string) : DirSt :=
  MkDirSt (map (λ f, MkAuto f None None true true false false) files)
          0 false [] [].

(** ** Chunks and characters *)

(** No character is split between two chunks: every chunk but the last
    ends between two characters. *)
Fixpoint unsplit (chunks : list (list Byte.byte)) : bool :=
  match chunks with
  | [] => true
  | c :: rest =>
      match rest with
      | [] => true
      | _ :: _ => wholeChars c && unsplit rest
      end
  end.

(** Bytes below 128 only, each a character of its own. *)
Definition isAscii (l : list Byte.byte) : bool :=
  forallb (λ b, byteVal b <=? 127) l.

(** ** One handler after another *)

(** Two handlers of the instance run one after the other, the second on
    the instance the first one left; their effects in order. *)
Definition andThen {A B} (first : Watcher.M A) (second : Watcher.M B)
    : Watcher.M B :=
  λ st, let '(_, st1, e1) := first st in
        let '(b, st2, e2) := second st1 in
        (b, st2, (e1 ++ e2)%list).

(** ** A listing in which every task succeeds *)

Section Listing.

Variable lowerCase : string -> string.
(** the children, and what [Fs.stat] and the MIME detection answer for
    the child at an index *)
Variable files : list string.
Variable stats : nat -> Stats.
Variable mimes : nat -> string.

(** the record [do_push] builds for the child at an index *)
Definition metaOf (i : nat) : FileMeta :=
  MkMeta (default "" (files !! i)) (statBirthtime (stats i))
         (statMtime (stats i)) (size (stats i)) (isDirectory (stats i))
         (isFile (stats i)) (isSymbolicLink (stats i))
         (mimeOr (Some (mimes i))).

(** the closure of [Async.auto] for a child, given which of its two
    tasks have called back *)
Definition autoOf (f : string) (i : nat) (sd md : bool) : Auto :=
  MkAuto f (if sd then Some (stats i) else None)
         (if md then Some (mimes i) else None)
         (negb sd) (negb md) false (sd && md).

(** an outcome of the schedule is the success of a task, with the
    answer of that child *)
Definition succeeds (io : nat * TaskOutcome) : Prop :=
  io.2 = StatDone (inr (stats io.1)) \/ io.2 = MimeDone (inr (mimes io.1)).

(** The state of a listing without failures: [sd] and [md] tell whose
    [stat] and whose detection are done, [fin] lists the children with
    both done, in the order in which they were pushed. *)
Definition listingState (st : DirSt) (sd md : nat -> bool) (fin : list nat)
    : Prop :=
  autos st = imap (λ i f, autoOf f i (sd i) (md i)) files /\
  NoDup fin /\
  (forall i, i ∈ fin <-> (i < length files)%nat /\ sd i = true /\ md i = true) /\
  completed st = length fin /\
  responseFiles st = map metaOf fin /\
  eachFired st = bool_decide (length fin = length files) /\
  calls st = if eachFired st
             then [(None, sortBy lowerCase (map metaOf fin))]
             else [].

End Listing.

(** the task of child [i] is done from now on *)
Definition markDone (d : nat -> bool) (i : nat) : nat -> bool :=
  λ j, if bool_decide (j = i) then true else d j.
(** * Properties of the batch machinery *)

Section ReplenishExits.

Variable limit : Z.
Variable iteratee : nat -> JsVal -> Ctl.
Variable final : option JsError -> list Event.

Lemma callback_running err st :
  running (callback final err st) = running st.
Proof. unfold callback. destruct (fired st); reflexivity. Qed.

Lemma callback_done err st :
  done (callback final err st) = done st.
Proof. unfold callback. destruct (fired st); reflexivity. Qed.

Lemma loopTest_callback err st :
  loopTest limit (callback final err st) = loopTest limit st.
Proof. unfold loopTest. now rewrite callback_running, callback_done. Qed.

Lemma loopTest_setDone st : loopTest limit (setDone st) = false.
Proof. unfold loopTest. cbn. apply andb_false_r. Qed.

(** When [replenish] returns, the test of its loop is false: this is
    why a loop that re-entered [replenish] through a synchronous
    callback has nothing left to do. *)
Lemma replenish_exits its st :
  loopTest limit (replenishFrom limit iteratee final its st) = false.
Proof.
  revert st. induction its as [|[k v] rest IH]; intros st; cbn [replenishFrom].
  - destruct (loopTest limit st) eqn:T; [|exact T].
    destruct (running _ <=? 0);
      rewrite ?loopTest_callback; apply loopTest_setDone.
  - destruct (loopTest limit st) eqn:T; [|exact T].
    destruct (iteratee k v) as [pre [e|e]|op]; try apply IH.
    unfold iterateeCallback. destruct e as [e|].
    + rewrite loopTest_callback. apply loopTest_setDone.
    + destruct (done _ && (running _ <=? 0)).
      * rewrite loopTest_callback. apply loopTest_setDone.
      * apply IH.
Qed.

End ReplenishExits.

(** * [isSelf] on resolved paths *)

Lemma isSelf_nestedAt srv moveTo moveFrom :
  isSelf srv moveTo moveFrom = nestedAt (path srv moveTo) (path srv moveFrom).
Proof. reflexivity. Qed.

Lemma prefix_length (a b : string) :
  String.prefix a b = true -> (String.length a <= String.length b)%nat.
Proof.
  revert b. induction a as [|c a IH]; intros b H; [cbn; lia|].
  destruct b as [|d b]; cbn in H; [discriminate|].
  destruct (Ascii.ascii_dec c d); [|discriminate].
  cbn. apply IH in H. lia.
Qed.

Lemma substring_length_le (n : nat) (s : string) :
  (String.length (String.substring 0 n s) <= n)%nat.
Proof.
  revert n. induction s as [|c s IH]; intros [|n]; cbn; try lia.
  specialize (IH n). lia.
Qed.

Lemma lastIndexOfFrom_bound (s : string) (c : ascii) (i : Z) :
  0 <= i ->
  lastIndexOfFrom i s c = -1 \/
  i <= lastIndexOfFrom i s c < i + Z.of_nat (String.length s).
Proof.
  revert i. induction s as [|a s IH]; intros i Hi; cbn [lastIndexOfFrom].
  - now left.
  - destruct (IH (i + 1)) as [E|B]; [lia| |].
    + rewrite E. change (-1 =? -1) with true. cbv iota.
      destruct (Ascii.eqb a c); [right|now left].
      cbn [String.length]. lia.
    + destruct (lastIndexOfFrom (i + 1) s c =? -1) eqn:Q.
      * apply Z.eqb_eq in Q. lia.
      * right. cbn [String.length]. lia.
Qed.

(** The directory cut out of a non-empty path is strictly shorter than
    the path. *)
Lemma dirOf_shorter (p : string) :
  p <> "" -> (String.length (dirOf p) < String.length p)%nat.
Proof.
  intros Hp. unfold dirOf, substringTo, lastIndexOf.
  pose proof (substring_length_le (Z.to_nat (lastIndexOfFrom 0 p "/")) p) as L.
  destruct (lastIndexOfFrom_bound p "/" 0) as [E|B]; [lia| |].
  - rewrite E in *. cbn in L. destruct p; [congruence|cbn in *; lia].
  - lia.
Qed.

(** * The batch form of [move] *)

(** C1.  The batch form of [move] does not run the self-containment
    check on the pair it is about to move: the test inside the iteratee is
    [isSelf(ending, initial)] on the two whole arrays.  In the sandbox
    rooted at [/srv], [move(["a","b"], ["a/x","c"])] has a first pair whose
    destination [a/x] lies under its source [a], yet both moves are
    launched and, when they succeed, the batch reports success: no
    self-move error is raised. *)
Theorem move_batch_self_check_on_arrays :
  isSelf (sandbox "/srv") (VStr "a/x") (VStr "a") = true /\
  isSelf (sandbox "/srv") (VArr [VStr "a/x"; VStr "c"])
         (VArr [VStr "a"; VStr "b"]) = false /\
  move (sandbox "/srv") (VArr [VStr "a"; VStr "b"])
       (VArr [VStr "a/x"; VStr "c"]) [(0%nat, None); (1%nat, None)]
  = [Launch 0 (FsMove "/srv/a" "/srv/a/x");
     Launch 1 (FsMove "/srv/b" "/srv/c");
     Settle 0 None; Settle 1 None; Next None None].
Proof. repeat split; vm_compute; reflexivity. Qed.

(** In the scalar form the same call is rejected before anything is
    launched. *)
Lemma move_scalar_self_rejected sched :
  move (sandbox "/srv") (VStr "a") (VStr "a/x") sched
  = [Next (Some selfMove) None].
Proof. reflexivity. Qed.

(** C2.  A destination array longer than the source array is not
    detected: the iteratee only tests [ending[key]] for the keys of
    [initial].  [move(["a"], ["b","c"])] launches the one move and reports
    success; the length error is never produced. *)
Theorem move_longer_destination_accepted :
  move (sandbox "/srv") (VArr [VStr "a"]) (VArr [VStr "b"; VStr "c"])
       [(0%nat, None)]
  = [Launch 0 (FsMove "/srv/a" "/srv/b"); Settle 0 None; Next None None].
Proof. vm_compute. reflexivity. Qed.

(** The other direction is detected, as in the example of the spec: the
    second key has no destination.  The first move is already in flight
    by then. *)
Lemma move_longer_source_rejected :
  move (sandbox "/srv") (VArr [VStr "a"; VStr "b"]) (VArr [VStr "c"]) []
  = [Launch 0 (FsMove "/srv/a" "/srv/c"); Next (Some lengthMismatch) None].
Proof. vm_compute. reflexivity. Qed.

(** * [decompress] *)

(** Whatever is passed, [decompress] takes one of its first two branches:
    an array goes through the batch, everything else is resolved as one
    archive path. *)
Lemma decompress_branches srv files sched :
  decompress srv files sched =
  match files with
  | VArr archives =>
      log (runEach 5 (λ _ file, Start (unpackOp srv file)) unpackDone
             (λ err, [Next err None]) archives sched)
  | _ => single (unpackOp srv files) (λ r, [Next r None]) sched
  end.
Proof. destruct files; reflexivity. Qed.

(** C4.  The branch that reports the invalid argument type cannot be
    reached, since its two guards are [!_.isArray(files)] and
    [_.isArray(files)].  A number is treated as a single archive path: in
    the sandbox rooted at [/srv], [decompress(42)] unpacks [/srv/42] into
    [/srv] and reports what the engine reports. *)
Theorem decompress_number_is_unpacked :
  (forall srv n sched,
     decompress srv (VNum n) sched
     = single (Unpack (path srv (VNum n)) (dirOf (path srv (VNum n))))
         (λ r, [Next r None]) sched) /\
  decompress (sandbox "/srv") (VNum 42) [(0%nat, None)]
  = [Launch 0 (Unpack "/srv/42" "/srv"); Settle 0 None; Next None None].
Proof. split; [reflexivity|vm_compute; reflexivity]. Qed.

(** C5.  The batches do not report once and at the end.  In the batch of
    [decompress] the success handler of every archive calls [next] itself:
    with two archives that both unpack, [next] is called when the first one
    is done, while the second is still in flight, and again when the second
    is done.  In the batch of [move] the self-move branch calls [next]
    itself for every element that is started. *)
Theorem batch_result_reported_early_and_twice :
  decompress (sandbox "/srv") (VArr [VStr "a.tar"; VStr "d/b.tar"])
             [(0%nat, None); (1%nat, None)]
  = [Launch 0 (Unpack "/srv/a.tar" "/srv");
     Launch 1 (Unpack "/srv/d/b.tar" "/srv/d");
     Settle 0 None; Next None None;
     Settle 1 None; Next None None]
  /\
  move (sandbox "/srv") (VArr [VStr "a"; VStr "b"])
       (VArr [VStr "a"; VStr "b"]) []
  = [Next (Some selfMove) None; Next (Some selfMove) None].
Proof. split; vm_compute; reflexivity. Qed.

(** * [compress] with several sources *)

Lemma removeFirst_unfold (pattern s : string) :
  removeFirst pattern s =
  if String.prefix pattern s then sliceFrom (String.length pattern) s
  else match s with
       | EmptyString => EmptyString
       | String a rest => String a (removeFirst pattern rest)
       end.
Proof. destruct s; reflexivity. Qed.

Lemma prefix_app (p rest : string) : String.prefix p (p ++ rest) = true.
Proof.
  induction p as [|c p IH].
  - destruct rest; reflexivity.
  - change (String c p ++ rest) with (String c (p ++ rest)).
    cbn [String.prefix].
    destruct (Ascii.ascii_dec c c); [exact IH|congruence].
Qed.

Lemma substring_all (s : string) : String.substring 0 (String.length s) s = s.
Proof. induction s as [|c s IH]; cbn; [reflexivity|now rewrite IH]. Qed.

Lemma sliceFrom_app (p rest : string) :
  sliceFrom (String.length p) (p ++ rest) = rest.
Proof.
  unfold sliceFrom. induction p as [|c p IH].
  - change ("" ++ rest) with rest. cbn [String.length].
    rewrite Nat.sub_0_r. apply substring_all.
  - change (String c p ++ rest) with (String c (p ++ rest)).
    cbn [String.length String.substring Nat.sub]. exact IH.
Qed.

(** Removing the root from a path that starts with it leaves the part
    below the root. *)
Lemma removeFirst_prefix (root rest : string) :
  removeFirst root (root ++ rest) = rest.
Proof.
  rewrite removeFirst_unfold, prefix_app. apply sliceFrom_app.
Qed.

Lemma entriesOf_app (a b : list Event) :
  entriesOf (a ++ b) = (entriesOf a ++ entriesOf b)%list.
Proof. unfold entriesOf. apply omap_app. Qed.

Lemma entriesOf_Push (l : list string) : entriesOf (map Push l) = l.
Proof.
  induction l as [|x l IH]; [reflexivity|].
  cbn. unfold entriesOf in IH. now rewrite IH.
Qed.

Lemma imap_keys_values (g : nat -> nat) (l : list JsVal) :
  map snd (imap (λ i v, (g i, v)) l) = l.
Proof.
  revert g. induction l as [|x l IH]; intros g; [reflexivity|].
  cbn. f_equal. apply (IH (g ∘ S)).
Qed.

Section CompressSources.

Variable srv : Server.
Variable to : JsVal.

(** The first task of the series runs to its end before it returns: it
    pushes the entry of every kept source, in order, and calls the
    callback of the series without error. *)
Lemma compress_replenish its st :
  running st = 0 -> done st = false -> fired st = None ->
  let st' := replenishFrom 5 (compressEach srv to) (λ _, []) its st in
  log st' = (log st ++ map Push (map (entryOf srv) (kept srv to (map snd its))))%list
  /\ fired st' = Some None.
Proof.
  revert st. induction its as [|[k v] rest IH]; intros st Hr Hd Hf;
    cbn [replenishFrom]; unfold loopTest; rewrite Hr, Hd; cbn [andb negb Z.ltb Z.compare].
  - cbn. unfold callback. cbn. rewrite Hr, Hf. cbn.
    now rewrite !app_nil_r.
  - unfold compressEach, kept. cbn [map snd]. rewrite filter_cons.
    destruct (isSelf srv to v) eqn:S; unfold iterateeCallback; cbn;
      rewrite Hr, Hd; cbn; fold (compressEach srv to); fold (kept srv to (map snd rest)).
    + destruct (decide (true = false)) as [E|_]; [discriminate|].
      destruct (IH (addRunning (-1) (emit [] (addRunning 1 (setItems rest st)))))
        as [L F]; cbn; rewrite ?Hr; auto.
      split; [|exact F]. rewrite L. cbn. now rewrite app_nil_r.
    + destruct (decide (false = false)) as [_|N]; [|congruence].
      fold (entryOf srv v).
      destruct (IH (addRunning (-1)
                      (emit [Push (entryOf srv v)] (addRunning 1 (setItems rest st)))))
        as [L F]; cbn; rewrite ?Hr; auto.
      split; [|exact F]. rewrite L. cbn. now rewrite <- app_assoc.
Qed.

End CompressSources.

(** C9.  [compress] with an array of sources and a string destination:
    the sources that would contain the archive are skipped without error;
    when none is left the call fails with the error for no valid entries;
    otherwise one archive, named after the token of the call and placed in
    the destination directory, is packed from the sandbox root with
    exactly the entries of the kept sources, in order, and the name is
    handed to [next] when the stream settles.  An entry is the resolved
    path with the root removed. *)
Theorem compress_sources_packs_kept join srv sources (to : string) token r sched :
  let root := path srv VUndefined in
  let entries := map (entryOf srv) (kept srv (VStr to) sources) in
  compress join srv (VArr sources) (VStr to) token ((0%nat, r) :: sched)
  = match kept srv (VStr to) sources with
    | [] => [Next (Some noValidEntries) None]
    | _ :: _ =>
        (map Push entries ++
         [Launch 0 (PackEntries root entries
                      (join (path srv (VStr to)) (saveAsName token)));
          Settle 0 r;
          Next r (Some (saveAsName token))])%list
    end
  /\ forall rest, removeFirst root (root ++ rest) = rest.
Proof.
  intros root entries. split; [|intros; apply removeFirst_prefix].
  unfold compress. cbn [isString isArray negb].
  unfold eachOfLimit. cbn [Z.leb Z.compare]. unfold replenish. cbn [items].
  destruct (compress_replenish srv (VStr to)
              (imap (λ i v, (i, v)) sources)
              (MkSt (imap (λ i v, (i, v)) sources) [] 0 false None []))
    as [L F]; try reflexivity.
  cbn [log] in L. rewrite (imap_keys_values id) in L.
  rewrite F, L. cbn [app]. rewrite entriesOf_Push.
  fold entries. subst entries.
  destruct (kept srv (VStr to) sources) as [|f fs]; [reflexivity|].
  cbn [map]. rewrite bool_decide_eq_false_2 by discriminate.
  reflexivity.
Qed.

(** * [read] and [readEnd] *)

Lemma chunksOf_concat (n fuel : nat) (l : list Byte.byte) :
  (0 < n)%nat -> (length l <= fuel)%nat -> concat (chunksOf fuel n l) = l.
Proof.
  intros Hn. revert l. induction fuel as [|fuel IH]; intros l Hl.
  - destruct l; [reflexivity|cbn in Hl; lia].
  - destruct l as [|x l]; [reflexivity|].
    cbn [chunksOf concat]. rewrite IH.
    + apply take_drop.
    + rewrite length_drop. cbn [length] in *. lia.
Qed.

(** Decoding may be cut wherever the decoder is between two characters. *)
Lemma decodeFrom_app (st : option Partial) (a b : list Byte.byte) :
  stateAfter st a = None ->
  decodeFrom st (a ++ b) = (decodeFrom st a ++ decodeFrom None b)%list.
Proof.
  revert st. induction a as [|x a IH]; intros st H.
  - cbn in H. now subst st.
  - cbn [app decodeFrom stateAfter] in *.
    destruct (step st (byteVal x)) as [out st'].
    cbn [snd] in H. rewrite (IH _ H). now rewrite app_assoc.
Qed.

Lemma utf8Decode_app (a b : list Byte.byte) :
  wholeChars a = true ->
  utf8Decode (a ++ b) = (utf8Decode a ++ utf8Decode b)%list.
Proof.
  unfold wholeChars, utf8Decode. intros H. apply decodeFrom_app.
  now destruct (stateAfter None a).
Qed.

(** Chunks decoded one by one give the text of their concatenation when
    no character is split between two of them. *)
Lemma decode_unsplit (chunks : list (list Byte.byte)) :
  unsplit chunks = true ->
  concat (map utf8Decode chunks) = utf8Decode (concat chunks).
Proof.
  induction chunks as [|c rest IH]; [reflexivity|].
  destruct rest as [|c' rest].
  - intros _. cbn. now rewrite !app_nil_r.
  - intros H. cbn [unsplit] in H. apply andb_true_iff in H as [Hc Hr].
    cbn [map concat] in *. rewrite (IH Hr).
    now rewrite (utf8Decode_app _ _ Hc).
Qed.

Lemma fold_decode_concat (chunks : list (list Byte.byte)) (acc : list Z) :
  fold_left (λ lines data, lines ++ utf8Decode data)%list chunks acc
  = (acc ++ concat (map utf8Decode chunks))%list.
Proof.
  revert acc. induction chunks as [|c cs IH]; intros acc; cbn.
  - now rewrite app_nil_r.
  - rewrite IH. now rewrite app_assoc.
Qed.

(** The stream of [readEnd] on a regular file, for a bound that is not
    negative: the chunks of the content without its first [size - bound]
    bytes, each converted on its own. *)
Lemma readEnd_stream srv disk file n maxBytes :
  disk (path srv file) = inr n -> kind n = KFile ->
  0 <= default 80000 maxBytes ->
  let tail := drop (length (bytes n) - Z.to_nat (default 80000 maxBytes))
                   (bytes n) in
  readEnd srv disk file maxBytes
  = ReadText (concat (map utf8Decode
                        (chunksOf (length tail) highWaterMark tail))).
Proof.
  intros Hd Hk Hb tail. unfold readEnd, fsStat. rewrite Hd.
  cbn [statsOf isFile size]. rewrite Hk. cbn [negb].
  set (bound := default 80000 maxBytes) in *.
  set (len := length (bytes n)) in *.
  assert (R : forall opts range,
             createReadStream (bytes n) opts
             = Some (chunksOf (length range) highWaterMark range) ->
             range = tail ->
             match createReadStream (bytes n) opts with
             | Some chunks =>
                 ReadText
                   (fold_left (λ lines data, lines ++ utf8Decode data)%list
                              chunks [])
             | None => ReadThrew
             end
             = ReadText (concat (map utf8Decode
                                   (chunksOf (length tail) highWaterMark tail)))).
  { intros opts range -> ->. now rewrite fold_decode_concat. }
  destruct (Z.of_nat len >? bound) eqn:G.
  - apply (R _ (take (Z.to_nat (Z.of_nat len - (Z.of_nat len - bound) + 1))
                     (drop (Z.to_nat (Z.of_nat len - bound)) (bytes n)))).
    + unfold createReadStream.
      destruct (Z.of_nat len - bound >? Z.of_nat len) eqn:T; [lia|reflexivity].
    + unfold tail.
      replace (Z.to_nat (Z.of_nat len - bound)) with (len - Z.to_nat bound)%nat
        by lia.
      apply take_ge. rewrite length_drop. fold len. lia.
  - apply (R _ (bytes n)); [reflexivity|].
    unfold tail. replace (len - Z.to_nat bound)%nat with 0%nat by lia.
    reflexivity.
Qed.

(** What [read] returns as text is the content of a regular file,
    decoded. *)
Lemma read_text_inv srv disk file full :
  read srv disk file = ReadText full ->
  exists n, disk (path srv file) = inr n /\ kind n = KFile /\
            full = utf8Decode (bytes n).
Proof.
  unfold read, fsStat, fsReadFile.
  destruct (disk (path srv file)) as [err|n] eqn:Hd; [discriminate|].
  cbn [statsOf isFile size].
  destruct (kind n) eqn:Hk; cbn [negb]; try discriminate.
  destruct (_ >? _); [discriminate|].
  intros [= <-]. now exists n.
Qed.




(** * [stat] and [directory] *)

(** In [stat] the error of the MIME detection is not looked at: the
    record is handed over with [mime] set to ["unknown"]. *)
Lemma stat_mime_failure_unknown base srv file st e :
  stat base srv file (inr st) (inl e)
  = [StatNext None
       (Some (MkMeta (base (path srv file)) (statCtime st) (statMtime st)
                (size st) (isDirectory st) (isFile st) (isSymbolicLink st)
                "unknown"))].
Proof. reflexivity. Qed.

(** C7.  In [directory] the error of the MIME detection of a child is
    passed to [Async.auto], which fails the listing: with one child whose
    [stat] succeeds and whose detection fails, [next] gets the detection
    error and no record for the child, whichever of the two outcomes comes
    first.  With a child listed before it, [next] gets the error too. *)
Theorem directory_mime_failure_fails_listing lowerCase dir st e :
  let dirStats := MkStats false true false 4096 0 0 0 in
  directory lowerCase dir (inr dirStats) (inr ["a.txt"])
    [(0%nat, StatDone (inr st)); (0%nat, MimeDone (inl e))]
  = [(Some e, [])]
  /\
  directory lowerCase dir (inr dirStats) (inr ["a.txt"])
    [(0%nat, MimeDone (inl e)); (0%nat, StatDone (inr st))]
  = [(Some e, [])]
  /\
  directory lowerCase dir (inr dirStats) (inr ["a.txt"; "b.txt"])
    [(0%nat, StatDone (inr st)); (0%nat, MimeDone (inr "text/plain"));
     (1%nat, StatDone (inr st)); (1%nat, MimeDone (inl e))]
  = [(Some e,
      [MkMeta "a.txt" (statBirthtime st) (statMtime st) (size st)
              (isDirectory st) (isFile st) (isSymbolicLink st) "text/plain"])].
Proof. repeat split; reflexivity. Qed.

(** When the detection of every child succeeds, an empty result is
    replaced by ["unknown"] and the listing is handed over without
    error. *)
Lemma directory_empty_mime_unknown lowerCase dir st :
  directory lowerCase dir (inr (MkStats false true false 4096 0 0 0))
    (inr ["a.txt"])
    [(0%nat, StatDone (inr st)); (0%nat, MimeDone (inr ""))]
  = [(None,
      [MkMeta "a.txt" (statBirthtime st) (statMtime st) (size st)
              (isDirectory st) (isFile st) (isSymbolicLink st) "unknown"])].
Proof. reflexivity. Qed.

(** * The watcher of the configuration file *)

Import Watcher.

(** C8.  One change notification of the configuration file.  With the
    flag set, the flag is cleared and nothing else happens.  With the flag
    clear and a file that reads as JSON, the value read replaces the
    document in memory.  With the flag clear and a file that does not
    read, the flag is set, the file is rewritten from the document in
    memory and that document is unchanged, whatever the rewrite comes back
    with. *)
Theorem watcher_change_reconciles srv document :
  (forall r w,
     changeEvent srv r w (MkInstance document true)
     = (tt, MkInstance document false, []))
  /\
  (forall object w,
     changeEvent srv (inr object) w (MkInstance document false)
     = (tt, MkInstance object false,
        [LogDebug "Detected remote file change, updating JSON object correspondingly.";
         ReadJson (configLocation srv)]))
  /\
  (forall err w,
     changeEvent srv (inl err) w (MkInstance document false)
     = (tt, MkInstance document true,
        [LogDebug "Detected remote file change, updating JSON object correspondingly.";
         ReadJson (configLocation srv);
         LogWarn err "An error was detected with the changed file, attempting to undo the changes.";
         WriteJson (configLocation srv) document;
         match w with
         | None => LogDebug "Successfully undid those remote changes."
         | Some writeErr =>
             LogFatal writeErr "Unable to undo those changes, this could break the daemon badly."
         end])).
Proof.
  repeat split.
  intros err [w|]; reflexivity.
Qed.

(** * [copy] *)

(** C10.  [copy] with an options object that has [preserveTimestamps]
    set to [true] and no key [timestamps]: the option handed to [Fs.copy]
    as [preserveTimestamps] is [false], since only the key [timestamps] is
    read. *)
Theorem copy_ignores_preserveTimestamps srv file newpath
    (fields : gmap string JsVal) :
  fields !! "preserveTimestamps" = Some (VBool true) ->
  fields !! "timestamps" = None ->
  exists c,
    copy srv file newpath (VObj fields)
    = Some (MkCopy (path srv file) (path srv newpath) c (VBool false)).
Proof.
  intros _ Ht. unfold copy. cbn. rewrite Ht. cbn. eexists. reflexivity.
Qed.

Lemma copy_ignores_preserveTimestamps_witness :
  exists c,
    copy (sandbox "/srv") (VStr "a") (VStr "b")
         (VObj {[ "preserveTimestamps" := VBool true ]})
    = Some (MkCopy "/srv/a" "/srv/b" c (VBool false)).
Proof.
  apply (copy_ignores_preserveTimestamps (sandbox "/srv") (VStr "a") (VStr "b")
           {[ "preserveTimestamps" := VBool true ]}).
  - vm_compute. reflexivity.
  - vm_compute. reflexivity.
Defined.

(** * Further properties of the controller *)

(** ** [isSelf] *)

Lemma append_nil_r (s : string) : s ++ "" = s.
Proof.
  induction s as [|c s IH]; [reflexivity|].
  change (String c s ++ "") with (String c (s ++ "")). now rewrite IH.
Qed.

Lemma append_assoc (a b c : string) : (a ++ b) ++ c = a ++ (b ++ c).
Proof.
  induction a as [|x a IH]; [reflexivity|].
  change (String x (a ++ b ++ c)) with (String x a ++ (b ++ c)) in *.
  change ((String x a ++ b) ++ c) with (String x ((a ++ b) ++ c)).
  rewrite IH. reflexivity.
Qed.

Lemma prefix_split (s t : string) :
  String.prefix s t = true -> t = s ++ sliceFrom (String.length s) t.
Proof.
  revert t. induction s as [|c s IH]; intros t H.
  - unfold sliceFrom. cbn [String.length]. rewrite Nat.sub_0_r.
    now rewrite substring_all.
  - destruct t as [|d t]; cbn in H; [discriminate|].
    destruct (Ascii.ascii_dec c d) as [->|N]; [|discriminate].
    change (String d s ++ ?x) with (String d (s ++ x)).
    f_equal. exact (IH t H).
Qed.

Lemma prefix_slash (e : string) :
  String.prefix "/" e = true -> exists rest, e = "/" ++ rest.
Proof.
  destruct e as [|c e]; cbn [String.prefix]; [intros H; discriminate|].
  destruct (Ascii.ascii_dec "/" c) as [<-|N]; intros H; [|discriminate].
  now exists e.
Qed.

Lemma isSelf_spec srv (moveTo moveFrom : JsVal) :
  isSelf srv moveTo moveFrom = true <->
  path srv moveTo = path srv moveFrom \/
  exists rest, path srv moveTo = path srv moveFrom ++ "/" ++ rest.
Proof.
  rewrite isSelf_nestedAt.
  generalize (path srv moveTo) (path srv moveFrom). intros t s.
  unfold nestedAt, startsWith. split.
  - destruct (String.prefix s t) eqn:P; cbn [negb]; [|intros; discriminate].
    pose proof (prefix_split _ _ P) as E.
    destruct (String.eqb_spec (sliceFrom (String.length s) t) "") as [Z|_].
    + intros _. left. rewrite E, Z. apply append_nil_r.
    + intros S. apply prefix_slash in S as [rest R]. right. exists rest.
      now rewrite <- R.
  - intros [->|[rest ->]].
    + rewrite <- (append_nil_r s) at 2. rewrite prefix_app. cbn [negb].
      rewrite <- (append_nil_r s) at 2. now rewrite sliceFrom_app.
    + rewrite prefix_app, sliceFrom_app. destruct rest; reflexivity.
Qed.

(** X1.  What [isSelf] decides: the resolved target is the resolved
    source itself, or the resolved source followed by a slash and
    anything.  A target that merely shares a name prefix with the source
    ([/srv/ab] against [/srv/a]) is not inside it. *)
Theorem isSelf_iff_equal_or_below srv (moveTo moveFrom : JsVal) :
  isSelf srv moveTo moveFrom = true <->
  path srv moveTo = path srv moveFrom \/
  exists rest, path srv moveTo = path srv moveFrom ++ "/" ++ rest.
Proof. apply isSelf_spec. Qed.

(** Every path is inside itself, whatever the resolver. *)
Lemma isSelf_reflexive srv (p : JsVal) : isSelf srv p p = true.
Proof. apply isSelf_spec. now left. Qed.

(** X2.  Containment of resolved paths is transitive. *)
Theorem isSelf_transitive srv (a b c : JsVal) :
  isSelf srv a b = true -> isSelf srv b c = true -> isSelf srv a c = true.
Proof.
  rewrite !isSelf_spec.
  intros [->|[r1 ->]] [->|[r2 ->]]; eauto.
  right. exists (r2 ++ "/" ++ r1). now rewrite !append_assoc.
Qed.

Lemma isSelf_transitive_witness :
  isSelf (sandbox "/srv") (VStr "a/b/c") (VStr "a") = true.
Proof.
  apply (isSelf_transitive (sandbox "/srv") (VStr "a/b/c") (VStr "a/b") (VStr "a"));
    vm_compute; reflexivity.
Defined.


(** ** The batches: what [Async.eachOfLimit] guarantees to [move] and
    [decompress] *)

Lemma pending_app (a b : list Event) :
  pending (a ++ b) = fold_left pendingStep b (pending a).
Proof. unfold pending. apply fold_left_app. Qed.

Lemma filter_remove_length (k : nat) (l : list nat) :
  k ∈ l -> (length (filter (λ j, j ≠ k) l) < length l)%nat.
Proof.
  induction l as [|x l IH]; intros H; [by apply elem_of_nil in H|].
  rewrite filter_cons. destruct (decide (x ≠ k)) as [N|E].
  - cbn. apply elem_of_cons in H as [->|H]; [congruence|].
    specialize (IH H). lia.
  - pose proof (length_filter (λ j, j ≠ k) l). cbn. lia.
Qed.

Ltac st_simpl :=
  cbn [emit setItems addRunning setInflight setDone
       items inflight running done fired log app].

Section Batch.

Variable limit : Z.
Variable iteratee : nat -> JsVal -> Ctl.
Variable completion : option JsError -> Exit.

Lemma callback_inflight err st :
  inflight (callback viaNext err st) = inflight st.
Proof. unfold callback. destruct (fired st); reflexivity. Qed.

Lemma callback_log err st :
  log (callback viaNext err st)
  = (log st ++ match fired st with Some _ => [] | None => [Next err None] end)%list.
Proof.
  unfold callback. destruct (fired st); cbn; [now rewrite app_nil_r|reflexivity].
Qed.

(** *** The cap *)

Lemma capped_callback err st :
  capped limit st -> capped limit (callback viaNext err st).
Proof.
  unfold capped. now rewrite callback_inflight, callback_running.
Qed.

Lemma replenish_capped its st :
  capped limit st -> capped limit (replenishFrom limit iteratee viaNext its st).
Proof.
  revert st. induction its as [|[k v] rest IH]; intros st C;
    cbn [replenishFrom]; destruct (loopTest limit st) eqn:T; try exact C.
  - destruct (running _ <=? 0); [apply capped_callback|]; exact C.
  - unfold loopTest in T. apply andb_prop in T as [T _].
    apply Z.ltb_lt in T. unfold capped in C.
    destruct (iteratee k v) as [pre [e|e]|op].
    + unfold iterateeCallback. cbn [addRunning emit setItems running done].
      replace (running st + 1 + -1) with (running st) by lia.
      destruct e as [e|].
      * apply capped_callback. unfold capped; cbn; lia.
      * destruct (done st && (running st <=? 0)).
        -- apply capped_callback. unfold capped; cbn; lia.
        -- apply IH. unfold capped; cbn; lia.
    + apply IH. unfold capped; cbn; lia.
    + apply IH. unfold capped; cbn. rewrite length_app. cbn. lia.
Qed.

Lemma settle_capped k r st :
  capped limit st ->
  capped limit (settle limit iteratee completion viaNext k r st).
Proof.
  intros C. unfold settle. case_bool_decide as H; [|exact C].
  apply filter_remove_length in H. unfold capped in C.
  destruct (completion r) as [e|e].
  - unfold iterateeCallback, replenish.
    cbn [addRunning emit setInflight running done items].
    destruct e as [e|].
    + apply capped_callback. unfold capped; cbn; lia.
    + destruct (done st && (running st + -1 <=? 0)).
      * apply capped_callback. unfold capped; cbn; lia.
      * apply replenish_capped. unfold capped; cbn; lia.
  - unfold capped; cbn; lia.
Qed.

(** *** The field [inflight] and the log *)

Hypothesis pre_nil : forall k v pre x, iteratee k v = Now pre x -> pre = [].

Lemma logged_callback err st :
  logged st -> logged (callback viaNext err st).
Proof.
  unfold logged. rewrite callback_inflight, callback_log, pending_app.
  intros ->. destruct (fired st); reflexivity.
Qed.

Lemma replenish_logged its st :
  logged st -> logged (replenishFrom limit iteratee viaNext its st).
Proof.
  revert st. induction its as [|[k v] rest IH]; intros st J;
    cbn [replenishFrom]; destruct (loopTest limit st) eqn:T; try exact J.
  - destruct (running _ <=? 0); [apply logged_callback|]; exact J.
  - unfold logged in J.
    destruct (iteratee k v) as [pre [e|e]|op] eqn:I.
    + apply pre_nil in I as ->. unfold iterateeCallback.
      cbn [addRunning emit setItems running done].
      destruct e as [e|]; [|destruct (_ && _)];
        try apply logged_callback; try apply IH;
        unfold logged; st_simpl; now rewrite app_nil_r.
    + apply pre_nil in I as ->. apply IH. unfold logged; st_simpl.
      now rewrite pending_app, <- J.
    + apply IH. unfold logged; st_simpl. now rewrite pending_app, <- J.
Qed.

Lemma settle_logged k r st :
  logged st -> logged (settle limit iteratee completion viaNext k r st).
Proof.
  intros J. unfold settle. case_bool_decide as H; [|exact J].
  unfold logged in J.
  assert (logged (emit [Settle k r]
                    (setInflight (filter (λ j, j ≠ k) (inflight st)) st))) as J'.
  { unfold logged; st_simpl. now rewrite pending_app, <- J. }
  destruct (completion r) as [e|e].
  - unfold iterateeCallback, replenish.
    destruct e as [e|]; [|destruct (_ && _)];
      try apply logged_callback; try apply replenish_logged; exact J'.
  - revert J'. generalize (emit [Settle k r]
                    (setInflight (filter (λ j, j ≠ k) (inflight st)) st)).
    intros st' J'. unfold logged in *. cbn [emit inflight log].
    rewrite pending_app. now rewrite <- J'.
Qed.

Lemma runEach_capped_logged coll sched :
  0 <= limit ->
  let st := runEach limit iteratee completion viaNext coll sched in
  capped limit st /\ logged st.
Proof.
  intros L. unfold runEach, settleAll.
  assert (capped limit (eachOfLimit limit iteratee viaNext coll)
          /\ logged (eachOfLimit limit iteratee viaNext coll)) as C.
  { unfold eachOfLimit. destruct (limit <=? 0).
    - split; [apply capped_callback|apply logged_callback];
        unfold capped, logged; cbn; auto; lia.
    - split; [apply replenish_capped|apply replenish_logged];
        unfold capped, logged; cbn; auto; lia. }
  revert C. generalize (eachOfLimit limit iteratee viaNext coll).
  induction sched as [|[k r] sched IH]; intros st [C J]; [now split|].
  cbn [fold_left]. apply IH. split;
    [now apply settle_capped|now apply settle_logged].
Qed.

(** *** One report, and nothing launched after it *)

Lemma reportedOnce_callback err st :
  reportedOnce st -> done st = true ->
  reportedOnce (callback viaNext err st).
Proof.
  intros [N D] Hd. unfold reportedOnce.
  rewrite callback_log, callback_done. unfold callback.
  destruct (fired st) as [e|] eqn:F.
  - rewrite F, app_nil_r. now split.
  - cbn [fired]. rewrite List.filter_app, N. now split.
Qed.

Lemma replenish_reportedOnce its st :
  (forall k v pre e, iteratee k v <> Now pre (ViaNext e)) ->
  reportedOnce st ->
  reportedOnce (replenishFrom limit iteratee viaNext its st).
Proof.
  intros NoNext. revert st. induction its as [|[k v] rest IH]; intros st R;
    cbn [replenishFrom]; destruct (loopTest limit st) eqn:T; try exact R.
  - assert (reportedOnce (setDone (setItems [] st))) as R'.
    { destruct R as [N D]. split; [exact N|reflexivity]. }
    destruct (running _ <=? 0); [now apply reportedOnce_callback|exact R'].
  - destruct R as [N D].
    destruct (iteratee k v) as [pre [e|e]|op] eqn:I.
    + apply pre_nil in I as ->. unfold iterateeCallback. st_simpl.
      destruct e as [e|]; [|destruct (_ && _)];
        try (apply reportedOnce_callback; [|reflexivity]); try apply IH;
        split; st_simpl; rewrite ?app_nil_r; auto.
    + now apply NoNext in I.
    + apply IH. split; st_simpl; [|exact D].
      now rewrite List.filter_app, N, app_nil_r.
Qed.

Lemma settle_reportedOnce k r st :
  (forall k v pre e, iteratee k v <> Now pre (ViaNext e)) ->
  (forall r e, completion r <> ViaNext e) ->
  reportedOnce st ->
  reportedOnce (settle limit iteratee completion viaNext k r st).
Proof.
  intros NoNext Cb [N D]. unfold settle. case_bool_decide as H; [|now split].
  destruct (completion r) as [e|e] eqn:C; [|now apply Cb in C].
  unfold iterateeCallback, replenish. st_simpl.
  destruct e as [e|]; [|destruct (_ && _)];
    try (apply reportedOnce_callback; [|reflexivity]);
    try apply replenish_reportedOnce; auto;
    split; st_simpl; auto; now rewrite List.filter_app, N, app_nil_r.
Qed.

Lemma eachOfLimit_reportedOnce coll :
  0 < limit ->
  (forall k v pre e, iteratee k v <> Now pre (ViaNext e)) ->
  reportedOnce (eachOfLimit limit iteratee viaNext coll).
Proof.
  intros L NoNext. unfold eachOfLimit.
  destruct (limit <=? 0) eqn:E; [lia|].
  apply replenish_reportedOnce; [exact NoNext|]. split; [reflexivity|].
  cbn. congruence.
Qed.

Lemma settleAll_reportedOnce sched st :
  (forall k v pre e, iteratee k v <> Now pre (ViaNext e)) ->
  (forall r e, completion r <> ViaNext e) ->
  reportedOnce st ->
  reportedOnce (settleAll limit iteratee completion viaNext sched st).
Proof.
  intros NoNext Cb. revert st.
  induction sched as [|[k r] sched IH]; intros st R; [exact R|].
  cbn [settleAll fold_left]. apply IH. now apply settle_reportedOnce.
Qed.

Lemma replenish_done its st :
  done st = true ->
  replenishFrom limit iteratee viaNext its st = setItems its st.
Proof.
  intros D. destruct its as [|[k v] rest]; cbn [replenishFrom];
    unfold loopTest; rewrite D, andb_false_r; reflexivity.
Qed.

Lemma settle_done k r st :
  done st = true ->
  let st' := settle limit iteratee completion viaNext k r st in
  done st' = true /\ launched (log st') = launched (log st).
Proof.
  intros D. unfold settle. case_bool_decide as H; [|now split].
  destruct (completion r) as [e|e].
  - unfold iterateeCallback, replenish. st_simpl.
    destruct e as [e|]; [|rewrite D; cbn [andb]; destruct (_ <=? 0)];
      rewrite ?replenish_done by (st_simpl; exact D);
      rewrite ?callback_done, ?callback_log; st_simpl;
      (split; [reflexivity || exact D|]);
      unfold launched; rewrite !List.filter_app; cbn;
      try destruct (fired st); cbn; now rewrite ?app_nil_r.
  - split; [exact D|]. unfold launched. cbn.
    rewrite !List.filter_app. cbn. now rewrite !app_nil_r.
Qed.

Lemma settleAll_done sched st :
  done st = true ->
  launched (log (settleAll limit iteratee completion viaNext sched st))
  = launched (log st).
Proof.
  revert st. induction sched as [|[k r] sched IH]; intros st D; [reflexivity|].
  cbn [settleAll fold_left].
  destruct (settle_done k r st D) as [D' L].
  unfold settleAll in IH. rewrite IH by exact D'. exact L.
Qed.

End Batch.

Lemma moveEach_pre srv initial ending k v pre x :
  moveEach srv initial ending k v = Now pre x -> pre = [].
Proof.
  unfold moveEach. destruct (isUndefined _); [congruence|].
  destruct (isSelf _ _ _); congruence.
Qed.

(** X3.  The concurrency cap.  At every point of a batch of [move] or of
    [decompress], that is after any outcomes in any order, at most five of
    the operations launched so far have not settled. *)
Theorem batch_at_most_five_pending srv (initial ending archives : list JsVal)
    (sched : Schedule) :
  (length (pending (move srv (VArr initial) (VArr ending) sched)) <= 5)%nat
  /\
  (length (pending (decompress srv (VArr archives) sched)) <= 5)%nat.
Proof.
  split.
  - destruct (runEach_capped_logged 5 (moveEach srv initial ending) moveDone
                (moveEach_pre srv initial ending) initial sched) as [C J];
      [lia|].
    change (move srv (VArr initial) (VArr ending) sched)
      with (log (runEach 5 (moveEach srv initial ending) moveDone viaNext
                   initial sched)).
    rewrite <- J. unfold capped in C. lia.
  - destruct (runEach_capped_logged 5 (λ _ file, Start (unpackOp srv file))
                unpackDone (λ k v pre x (H : Start _ = Now pre x),
                              match H with end)
                archives sched) as [C J]; [lia|].
    change (decompress srv (VArr archives) sched)
      with (log (runEach 5 (λ _ file, Start (unpackOp srv file)) unpackDone
                   viaNext archives sched)).
    rewrite <- J. unfold capped in C. lia.
Qed.

Lemma moveEach_no_next srv initial ending :
  isSelf srv (VArr ending) (VArr initial) = false ->
  forall k v pre e, moveEach srv initial ending k v <> Now pre (ViaNext e).
Proof.
  intros S k v pre e. unfold moveEach. rewrite S.
  destruct (isUndefined _); congruence.
Qed.

Lemma moveDone_callback r e : moveDone r <> ViaNext e.
Proof.
  unfold moveDone. destruct r as [err|]; [destruct (negb _)|]; congruence.
Qed.

Lemma move_batch_reportedOnce srv initial ending sched :
  isSelf srv (VArr ending) (VArr initial) = false ->
  reportedOnce (runEach 5 (moveEach srv initial ending) moveDone viaNext
                  initial sched).
Proof.
  intros S. apply settleAll_reportedOnce.
  - apply moveEach_pre.
  - now apply moveEach_no_next.
  - apply moveDone_callback.
  - apply eachOfLimit_reportedOnce; [apply moveEach_pre|lia|].
    now apply moveEach_no_next.
Qed.

(** X4.  When the test on the two arrays does not fire, a batch of
    [move] calls [next] at most once, whatever the outcomes and their
    order. *)
Theorem move_batch_reports_at_most_once srv (initial ending : list JsVal)
    (sched : Schedule) :
  isSelf srv (VArr ending) (VArr initial) = false ->
  (nextCalls (move srv (VArr initial) (VArr ending) sched) <= 1)%nat.
Proof.
  intros S. destruct (move_batch_reportedOnce srv initial ending sched S) as [N _].
  change (move srv (VArr initial) (VArr ending) sched)
    with (log (runEach 5 (moveEach srv initial ending) moveDone viaNext
                 initial sched)).
  unfold nextCalls. rewrite N. destruct (fired _); cbn; lia.
Qed.

Lemma move_batch_reports_at_most_once_witness :
  (nextCalls (move (sandbox "/srv") (VArr [VStr "a"; VStr "b"])
                (VArr [VStr "c"; VStr "d"])
                [(1%nat, Some (MkError "EPERM")); (0%nat, Some (MkError "EIO"))])
   <= 1)%nat.
Proof.
  apply (move_batch_reports_at_most_once (sandbox "/srv")).
  vm_compute. reflexivity.
Defined.

(** X5.  Once such a batch has called [next], with an error or not, no
    further move is launched, whatever arrives afterwards: the moves
    launched before stay in flight, the rest of the sources is left
    alone. *)
Theorem move_batch_launches_nothing_after_report srv
    (initial ending : list JsVal) (sched later : Schedule) :
  isSelf srv (VArr ending) (VArr initial) = false ->
  nextCalls (move srv (VArr initial) (VArr ending) sched) = 1%nat ->
  launched (move srv (VArr initial) (VArr ending) (sched ++ later)%list)
  = launched (move srv (VArr initial) (VArr ending) sched).
Proof.
  intros S N.
  change (move srv (VArr initial) (VArr ending) (sched ++ later)%list)
    with (log (runEach 5 (moveEach srv initial ending) moveDone viaNext
                 initial (sched ++ later)%list)).
  change (move srv (VArr initial) (VArr ending) sched)
    with (log (runEach 5 (moveEach srv initial ending) moveDone viaNext
                 initial sched)) in *.
  destruct (move_batch_reportedOnce srv initial ending sched S) as [F D].
  unfold runEach, settleAll in *. rewrite fold_left_app.
  apply settleAll_done. apply D. intros E.
  unfold nextCalls in N. rewrite F, E in N. discriminate.
Qed.

Lemma move_batch_launches_nothing_after_report_witness :
  launched (move (sandbox "/srv")
              (VArr [VStr "a"; VStr "b"; VStr "c"; VStr "d"; VStr "e"; VStr "f"])
              (VArr [VStr "1"; VStr "2"; VStr "3"; VStr "4"; VStr "5"; VStr "6"])
              ([(0%nat, Some (MkError "EPERM"))] ++ [(1%nat, None)])%list)
  = launched (move (sandbox "/srv")
              (VArr [VStr "a"; VStr "b"; VStr "c"; VStr "d"; VStr "e"; VStr "f"])
              (VArr [VStr "1"; VStr "2"; VStr "3"; VStr "4"; VStr "5"; VStr "6"])
              [(0%nat, Some (MkError "EPERM"))]).
Proof.
  apply (move_batch_launches_nothing_after_report (sandbox "/srv"));
    vm_compute; reflexivity.
Defined.

(** *** Nothing in flight: outcomes change nothing *)

Lemma settleAll_idle limit iteratee completion final sched st :
  inflight st = [] ->
  settleAll limit iteratee completion final sched st = st.
Proof.
  intros I. induction sched as [|[k r] sched IH]; [reflexivity|].
  cbn [settleAll fold_left]. unfold settle. rewrite I.
  rewrite bool_decide_eq_false_2 by apply not_elem_of_nil. exact IH.
Qed.

(** X6.  Empty batches.  [move([], ending)] and [decompress([])] call
    [next] once, without error, and launch nothing; outcomes that arrive
    are not theirs and change nothing. *)
Theorem empty_batches_succeed srv (ending : list JsVal) (sched : Schedule) :
  move srv (VArr []) (VArr ending) sched = [Next None None] /\
  decompress srv (VArr []) sched = [Next None None].
Proof.
  split.
  - change (move srv (VArr []) (VArr ending) sched)
      with (log (settleAll 5 (moveEach srv [] ending) moveDone viaNext sched
                   (eachOfLimit 5 (moveEach srv [] ending) viaNext []))).
    now rewrite settleAll_idle.
  - change (decompress srv (VArr []) sched)
      with (log (settleAll 5 (λ _ file, Start (unpackOp srv file)) unpackDone
                   viaNext sched
                   (eachOfLimit 5 (λ _ file, Start (unpackOp srv file))
                      viaNext []))).
    now rewrite settleAll_idle.
Qed.

(** X7.  Sources without any destination: [move] of a non-empty array
    onto the empty array reports the length error at the first element and
    launches nothing. *)
Theorem move_onto_empty_array_rejected srv (x : JsVal) (xs : list JsVal)
    (sched : Schedule) :
  move srv (VArr (x :: xs)) (VArr []) sched
  = [Next (Some lengthMismatch) None].
Proof.
  change (move srv (VArr (x :: xs)) (VArr []) sched)
    with (log (settleAll 5 (moveEach srv (x :: xs) []) moveDone viaNext sched
                 (eachOfLimit 5 (moveEach srv (x :: xs) []) viaNext (x :: xs)))).
  now rewrite settleAll_idle.
Qed.

(** *** The batch of [decompress] *)

Section Unpack.

Variable srv : Server.

Lemma unpack_replenish_launched its st :
  done st = false -> 0 <= running st <= 5 ->
  launched (log (replenishFrom 5 (unpackEach srv) viaNext its st))
  = (launched (log st) ++
     map (λ kv, Launch kv.1 (unpackOp srv kv.2))
         (take (Z.to_nat (5 - running st)) its))%list.
Proof.
  revert st. induction its as [|[k v] rest IH]; intros st D R;
    cbn [replenishFrom]; unfold loopTest; rewrite D; cbn [negb];
    rewrite andb_true_r.
  - rewrite take_nil. cbn [map]. rewrite app_nil_r.
    destruct (running st <? 5); [|reflexivity].
    st_simpl. destruct (running st <=? 0); [|reflexivity].
    rewrite callback_log. unfold launched. rewrite List.filter_app.
    destruct (fired _); cbn; now rewrite app_nil_r.
  - change (unpackEach srv k v) with (Start (unpackOp srv v)). cbv iota.
    destruct (running st <? 5) eqn:T.
    + apply Z.ltb_lt in T. rewrite IH by (st_simpl; auto; lia). st_simpl.
      replace (Z.to_nat (5 - running st))
        with (S (Z.to_nat (5 - (running st + 1)))) by lia.
      cbn [take map]. unfold launched. rewrite List.filter_app. cbn.
      now rewrite <- app_assoc.
    + apply Z.ltb_ge in T. st_simpl.
      replace (Z.to_nat (5 - running st)) with 0%nat by lia.
      cbn. now rewrite app_nil_r.
Qed.

Lemma unpack_settle_launched k r st :
  launched (log (settle 5 (unpackEach srv) unpackDone viaNext k r st)) = launched (log st).
Proof.
  unfold settle. case_bool_decide as H; [|reflexivity].
  destruct r as [e|]; cbn [unpackDone].
  - unfold iterateeCallback. rewrite callback_log. unfold launched. st_simpl.
    rewrite !List.filter_app. cbn. destruct (fired st); cbn;
      now rewrite !app_nil_r.
  - unfold launched. cbn. rewrite !List.filter_app. cbn.
    now rewrite !app_nil_r.
Qed.

Lemma unpack_settleAll_launched sched st :
  launched (log (settleAll 5 (unpackEach srv) unpackDone viaNext sched st))
  = launched (log st).
Proof.
  revert st. induction sched as [|[k r] sched IH]; intros st; [reflexivity|].
  cbn [settleAll fold_left]. unfold settleAll in IH. rewrite IH.
  apply unpack_settle_launched.
Qed.

End Unpack.

Lemma take_imap_pairs (n : nat) (g : nat -> nat) (l : list JsVal) :
  take n (imap (λ i v, (g i, v)) l) = imap (λ i v, (g i, v)) (take n l).
Proof.
  revert n g. induction l as [|x l IH]; intros [|n] g; try reflexivity.
  cbn. f_equal. apply (IH n (g ∘ S)).
Qed.

Lemma map_imap_pairs {B} (f : nat * JsVal -> B) (g : nat -> nat) (l : list JsVal) :
  map f (imap (λ i v, (g i, v)) l) = imap (λ i v, f (g i, v)) l.
Proof.
  revert g. induction l as [|x l IH]; intros g; [reflexivity|].
  cbn. f_equal. apply (IH (g ∘ S)).
Qed.

(** X8.  A batch of [decompress] launches the first five archives of the
    array and never any other, whatever the outcomes: a success is
    reported to [next], not to the library, so no slot is ever freed, and
    a failure ends the batch. *)
Theorem decompress_batch_launches_first_five srv (archives : list JsVal)
    (sched : Schedule) :
  launched (decompress srv (VArr archives) sched)
  = imap (λ k file, Launch k (unpackOp srv file)) (take 5 archives).
Proof.
  change (decompress srv (VArr archives) sched)
    with (log (settleAll 5 (unpackEach srv) unpackDone viaNext sched
                 (eachOfLimit 5 (unpackEach srv) viaNext archives))).
  rewrite unpack_settleAll_launched.
  unfold eachOfLimit. cbn [Z.leb Z.compare]. unfold replenish. st_simpl.
  rewrite unpack_replenish_launched by (cbn; auto; lia).
  cbn [log running launched List.filter app].
  change (Z.to_nat (5 - 0)) with 5%nat.
  rewrite (take_imap_pairs 5 id), (map_imap_pairs _ id). reflexivity.
Qed.

Lemma nextCalls_app (a b : list Event) :
  nextCalls (a ++ b) = (nextCalls a + nextCalls b)%nat.
Proof. unfold nextCalls. now rewrite List.filter_app, length_app. Qed.

Lemma okSettled_app (a b : list Event) :
  okSettled (a ++ b) = (okSettled a + okSettled b)%nat.
Proof. unfold okSettled. now rewrite List.filter_app, length_app. Qed.

Section UnpackCount.

Variable srv : Server.

Lemma counted_callback err st :
  counted st -> counted (callback viaNext err st).
Proof.
  unfold counted. rewrite callback_log, nextCalls_app, okSettled_app.
  unfold callback. destruct (fired st) eqn:F; cbn; rewrite ?F; lia.
Qed.

Lemma unpack_replenish_counted its st :
  counted st -> counted (replenishFrom 5 (unpackEach srv) viaNext its st).
Proof.
  revert st. induction its as [|[k v] rest IH]; intros st C;
    cbn [replenishFrom]; destruct (loopTest 5 st); try exact C.
  - destruct (_ <=? 0); [apply counted_callback|]; exact C.
  - change (unpackEach srv k v) with (Start (unpackOp srv v)). cbv iota.
    apply IH. unfold counted in *. st_simpl.
    rewrite nextCalls_app, okSettled_app, C. cbn. lia.
Qed.

Lemma unpack_settle_counted k r st :
  counted st -> counted (settle 5 (unpackEach srv) unpackDone viaNext k r st).
Proof.
  intros C. unfold settle. case_bool_decide as H; [|exact C].
  destruct r as [e|]; cbn [unpackDone].
  - unfold iterateeCallback. apply counted_callback.
    unfold counted in *. st_simpl.
    rewrite nextCalls_app, okSettled_app, C. cbn. lia.
  - unfold counted in *. st_simpl.
    rewrite !nextCalls_app, !okSettled_app, C. cbn. lia.
Qed.

Lemma unpack_run_counted archives sched :
  counted (runEach 5 (unpackEach srv) unpackDone viaNext archives sched).
Proof.
  unfold runEach, settleAll.
  assert (counted (eachOfLimit 5 (unpackEach srv) viaNext archives)) as C.
  { unfold eachOfLimit. cbn [Z.leb Z.compare].
    apply unpack_replenish_counted. reflexivity. }
  revert C. generalize (eachOfLimit 5 (unpackEach srv) viaNext archives).
  induction sched as [|[k r] sched IH]; intros st C; [exact C|].
  cbn [fold_left]. apply IH. now apply unpack_settle_counted.
Qed.

End UnpackCount.

(** X9.  In a batch of [decompress], [next] is called once for every
    archive that unpacks, and at most once more (for the first failure, or
    for an empty batch): with two or more archives that unpack, the caller
    is called back several times. *)
Theorem decompress_batch_calls_next_per_archive srv (archives : list JsVal)
    (sched : Schedule) :
  let evs := decompress srv (VArr archives) sched in
  (okSettled evs <= nextCalls evs <= okSettled evs + 1)%nat.
Proof.
  pose proof (unpack_run_counted srv archives sched) as C.
  change (decompress srv (VArr archives) sched)
    with (log (runEach 5 (unpackEach srv) unpackDone viaNext archives sched)).
  unfold counted in C. cbn zeta. destruct (fired _); lia.
Qed.

(** *** A batch of [move] in which nothing fails *)

Lemma launched_app (a b : list Event) :
  launched (a ++ b) = (launched a ++ launched b)%list.
Proof. apply List.filter_app. Qed.

Lemma filter_remove_NoDup (k : nat) (l : list nat) :
  NoDup l -> k ∈ l -> S (length (filter (λ j, j ≠ k) l)) = length l.
Proof.
  induction 1 as [|x l Hx ND IH]; intros H; [by apply elem_of_nil in H|].
  rewrite filter_cons. destruct (decide (x ≠ k)) as [N|E].
  - cbn. apply elem_of_cons in H as [->|H]; [congruence|]. now rewrite IH.
  - apply dec_stable in E. subst x. cbn. f_equal.
    clear IH H. induction l as [|y l IH]; [reflexivity|].
    rewrite filter_cons. apply not_elem_of_cons in Hx as [Hy Hl].
    apply NoDup_cons in ND as [_ ND].
    destruct (decide (y ≠ k)) as [|N]; [cbn; f_equal; now apply IH|].
    exfalso. apply N. congruence.
Qed.

Section Orderly.

Variable srv : Server.
Variables initial ending : list JsVal.

Lemma replenish_orderly its st :
  items st = its -> orderly srv initial ending st ->
  orderly srv initial ending (replenishFrom 5 (moveEach srv initial ending) viaNext its st).
Proof.
  revert st. induction its as [|[k v] rest IH];
    intros st E (R & ND & F & D & Fi & L); cbn [replenishFrom];
    destruct (loopTest 5 st) eqn:T.
  - unfold loopTest in T. apply andb_prop in T as [_ T].
    apply negb_true_iff in T. rewrite T in Fi. cbn in Fi.
    destruct (running (setDone (setItems [] st)) <=? 0) eqn:Z; cbn [setDone setItems running] in Z.
    + assert (running st = 0) as R0 by lia.
      unfold callback. st_simpl. rewrite Fi. st_simpl.
      repeat split; st_simpl; auto.
      * now rewrite E in ND.
      * rewrite R0. reflexivity.
      * rewrite launched_app. cbn. rewrite app_nil_r. now rewrite E in L.
    + repeat split; st_simpl; auto.
      * now rewrite E in ND.
      * rewrite Fi. destruct (running st =? 0) eqn:Q; [lia|reflexivity].
      * now rewrite E in L.
  - repeat split; st_simpl; auto; now rewrite <- E.
  - unfold loopTest in T. apply andb_prop in T as [_ T].
    apply negb_true_iff in T. rewrite T in Fi. cbn in Fi.
    rewrite E in F, ND, L. apply Forall_cons in F as [Fk F]. cbn in Fk.
    rewrite Fk. apply IH; [reflexivity|].
    repeat split; st_simpl; auto.
    + rewrite length_app. cbn. lia.
    + rewrite <- app_assoc. exact ND.
    + rewrite T. intros; discriminate.
    + rewrite T. exact Fi.
    + rewrite launched_app, <- app_assoc. exact L.
  - repeat split; st_simpl; auto; now rewrite <- E.
Qed.

Lemma moveDone_benign r : benign r = true -> moveDone r = ViaCallback None.
Proof.
  destruct r as [e|]; cbn; [|reflexivity]. now intros ->.
Qed.

Lemma settle_orderly k r st :
  benign r = true ->
  orderly srv initial ending st ->
  orderly srv initial ending (settle 5 (moveEach srv initial ending) moveDone viaNext k r st).
Proof.
  intros B O. unfold settle. case_bool_decide as H; [|exact O].
  destruct O as (R & ND & F & D & Fi & L).
  rewrite (moveDone_benign r B). unfold iterateeCallback. st_simpl.
  assert (NoDup (inflight st)) as NDi by (now apply NoDup_app in ND as [? _]).
  pose proof (filter_remove_NoDup k _ NDi H) as Len.
  assert ((running st =? 0) = false) as Rz by lia.
  rewrite Rz, andb_false_r in Fi.
  assert (NoDup (filter (λ j, j ≠ k) (inflight st) ++ map fst (items st))) as ND'.
  { apply NoDup_app in ND as (N1 & N2 & N3). apply NoDup_app. repeat split.
    - now apply NoDup_filter.
    - intros x Hx. apply N2. now apply list_elem_of_filter in Hx as [_ Hx].
    - exact N3. }
  destruct (done st && (running st + -1 <=? 0)) eqn:C.
  - apply andb_prop in C as [Dn C]. specialize (D Dn).
    unfold callback. st_simpl. rewrite Fi. st_simpl.
    repeat split; st_simpl; auto.
    + lia.
    + replace (running st + -1 =? 0) with true by lia. reflexivity.
    + rewrite !launched_app. cbn. now rewrite !app_nil_r.
  - apply replenish_orderly; [reflexivity|].
    repeat split; st_simpl; auto.
    + lia.
    + rewrite Fi. destruct (done st); [|reflexivity]. cbn in *.
      destruct (running st + -1 =? 0) eqn:Q; [lia|reflexivity].
    + rewrite launched_app. cbn. now rewrite app_nil_r.
Qed.

Lemma keys_of_imap (j : nat) (l : list JsVal) :
  map fst (imap (λ i v, ((j + i)%nat, v)) l) = seq j (length l).
Proof.
  revert j. induction l as [|x l IH]; intros j; [reflexivity|].
  cbn. rewrite Nat.add_0_r. f_equal. rewrite <- (IH (S j)). f_equal.
  apply imap_ext. intros i y _. cbn. f_equal. lia.
Qed.

Lemma eachOfLimit_orderly :
  isSelf srv (VArr ending) (VArr initial) = false ->
  (forall k, (k < length initial)%nat -> isUndefined (index ending k) = false) ->
  orderly srv initial ending (eachOfLimit 5 (moveEach srv initial ending) viaNext initial).
Proof.
  intros S U. unfold eachOfLimit. cbn [Z.leb Z.compare]. unfold replenish.
  apply replenish_orderly; [reflexivity|].
  repeat split; st_simpl; auto.
  - rewrite (keys_of_imap 0). apply NoDup_seq.
  - apply Forall_forall. intros [k v] H.
    apply elem_of_lookup_imap in H as (i & y & E & Hi). inversion E; subst.
    apply lookup_lt_Some in Hi. cbn. unfold moveEach.
    now rewrite (U i Hi), S.
  - intros; discriminate.
  - exact (map_imap_pairs (λ kv, Launch kv.1 (moveOp srv ending kv)) id initial).
Qed.

Lemma settleAll_orderly sched st :
  (forall k r, (k, r) ∈ sched -> benign r = true) ->
  orderly srv initial ending st ->
  orderly srv initial ending
    (settleAll 5 (moveEach srv initial ending) moveDone viaNext sched st).
Proof.
  revert st. induction sched as [|[k r] sched IH]; intros st B O; [exact O|].
  cbn [settleAll fold_left]. apply IH.
  - intros k' r' H. apply (B k' r'). now apply elem_of_cons; right.
  - apply settle_orderly; [|exact O]. apply (B k r). apply elem_of_cons; now left.
Qed.

End Orderly.

(** When the library is idle, the test of its loop is false. *)
Lemma settle_exits limit iteratee completion k r st :
  loopTest limit st = false ->
  loopTest limit (settle limit iteratee completion viaNext k r st) = false.
Proof.
  intros Q. unfold settle. case_bool_decide; [|exact Q].
  destruct (completion r) as [e|e].
  - unfold iterateeCallback, replenish.
    destruct e as [e|]; [|destruct (_ && _)];
      rewrite ?loopTest_callback; try apply loopTest_setDone.
    apply replenish_exits.
  - exact Q.
Qed.

Lemma runEach_exits limit iteratee completion coll sched :
  0 < limit ->
  loopTest limit (runEach limit iteratee completion viaNext coll sched) = false.
Proof.
  intros L. unfold runEach, settleAll.
  assert (loopTest limit (eachOfLimit limit iteratee viaNext coll) = false) as Q.
  { unfold eachOfLimit. destruct (limit <=? 0) eqn:E; [lia|].
    apply replenish_exits. }
  revert Q. generalize (eachOfLimit limit iteratee viaNext coll).
  induction sched as [|[k r] sched IH]; intros st Q; [exact Q|].
  cbn [fold_left]. apply IH. now apply settle_exits.
Qed.

(** X10.  A batch of [move] in which every source has a destination, the
    test on the two arrays does not fire, and every outcome so far is a
    success or an [EEXIST] error.  As long as a launched move has not
    settled, [next] has not been called.  Once none is left, [next] has
    been called exactly once, without error, and the moves launched are
    those of all the pairs, in order: an [EEXIST] outcome counts as done
    and does not stop the batch. *)
Theorem move_batch_succeeds_exactly_when_settled srv
    (initial ending : list JsVal) (sched : Schedule) :
  isSelf srv (VArr ending) (VArr initial) = false ->
  (forall k, (k < length initial)%nat -> isUndefined (index ending k) = false) ->
  (forall k r, (k, r) ∈ sched -> benign r = true) ->
  let evs := move srv (VArr initial) (VArr ending) sched in
  match pending evs with
  | [] =>
      List.filter isNext evs = [Next None None] /\
      launched evs = imap (λ k v, Launch k (moveOp srv ending (k, v))) initial
  | _ :: _ => List.filter isNext evs = []
  end.
Proof.
  intros Hs U B evs. subst evs.
  change (move srv (VArr initial) (VArr ending) sched)
    with (log (runEach 5 (moveEach srv initial ending) moveDone viaNext
                 initial sched)).
  pose proof (settleAll_orderly srv initial ending sched _ B
                (eachOfLimit_orderly srv initial ending Hs U))
    as (R & _ & _ & D & Fi & L).
  pose proof (runEach_exits 5 (moveEach srv initial ending) moveDone initial sched)
    as Q.
  destruct (runEach_capped_logged 5 (moveEach srv initial ending) moveDone
              (moveEach_pre srv initial ending) initial sched) as [_ J]; [lia|].
  destruct (move_batch_reportedOnce srv initial ending sched Hs) as [N _].
  fold (runEach 5 (moveEach srv initial ending) moveDone viaNext initial sched)
    in R, D, Fi, L.
  revert R D Fi L Q J N.
  generalize (runEach 5 (moveEach srv initial ending) moveDone viaNext initial sched).
  intros st R D Fi L Q J N. unfold logged in J. rewrite <- J.
  destruct (inflight st) as [|k ks] eqn:I.
  - cbn in R. unfold loopTest in Q. rewrite R in Q, Fi.
    specialize (Q ltac:(lia)). cbn in Q. apply negb_false_iff in Q.
    rewrite Q in Fi. cbn in Fi. rewrite Fi in N. split; [exact N|].
    rewrite (D Q) in L. cbn in L. now rewrite app_nil_r in L.
  - assert ((running st =? 0) = false) as Rz by (cbn [length] in R; lia).
    rewrite Rz, andb_false_r in Fi. now rewrite Fi in N.
Qed.

Lemma move_batch_succeeds_exactly_when_settled_witness :
  List.filter isNext
    (move (sandbox "/srv") (VArr [VStr "a"; VStr "b"]) (VArr [VStr "c"; VStr "d"])
       [(1%nat, None); (0%nat, Some (MkError "EEXIST: file already exists"))])
  = [Next None None] /\
  launched
    (move (sandbox "/srv") (VArr [VStr "a"; VStr "b"]) (VArr [VStr "c"; VStr "d"])
       [(1%nat, None); (0%nat, Some (MkError "EEXIST: file already exists"))])
  = [Launch 0 (FsMove "/srv/a" "/srv/c"); Launch 1 (FsMove "/srv/b" "/srv/d")].
Proof.
  apply (move_batch_succeeds_exactly_when_settled (sandbox "/srv")
           [VStr "a"; VStr "b"] [VStr "c"; VStr "d"]
           [(1%nat, None); (0%nat, Some (MkError "EEXIST: file already exists"))]).
  - vm_compute. reflexivity.
  - intros [|[|k]] Hk; [reflexivity|reflexivity|cbn in Hk; lia].
  - intros k r H. rewrite !elem_of_cons in H.
    destruct H as [E|[E|E]]; [inversion E; reflexivity|inversion E; reflexivity|].
    now apply elem_of_nil in E.
Defined.

(** X11.  In such a batch, the first outcome that is an error other than
    [EEXIST] is handed to [next] as it arrives, while the other moves
    launched are still in flight. *)
Theorem move_batch_first_failure_reported srv
    (initial ending : list JsVal) (sched : Schedule) (k : nat) (e : JsError) :
  isSelf srv (VArr ending) (VArr initial) = false ->
  (forall k, (k < length initial)%nat -> isUndefined (index ending k) = false) ->
  (forall k r, (k, r) ∈ sched -> benign r = true) ->
  k ∈ pending (move srv (VArr initial) (VArr ending) sched) ->
  benign (Some e) = false ->
  move srv (VArr initial) (VArr ending) (sched ++ [(k, Some e)])%list
  = (move srv (VArr initial) (VArr ending) sched
     ++ [Settle k (Some e); Next (Some e) None])%list.
Proof.
  intros Hs U B P H.
  change (move srv (VArr initial) (VArr ending) (sched ++ [(k, Some e)])%list)
    with (log (runEach 5 (moveEach srv initial ending) moveDone viaNext
                 initial (sched ++ [(k, Some e)])%list)).
  change (move srv (VArr initial) (VArr ending) sched)
    with (log (runEach 5 (moveEach srv initial ending) moveDone viaNext
                 initial sched)) in *.
  pose proof (settleAll_orderly srv initial ending sched _ B
                (eachOfLimit_orderly srv initial ending Hs U))
    as (R & _ & _ & _ & Fi & _).
  destruct (runEach_capped_logged 5 (moveEach srv initial ending) moveDone
              (moveEach_pre srv initial ending) initial sched) as [_ J]; [lia|].
  unfold runEach, settleAll in *. rewrite fold_left_app. cbn [fold_left fst snd].
  revert R Fi J P.
  generalize (fold_left
                (λ acc kr, settle 5 (moveEach srv initial ending) moveDone viaNext
                             kr.1 kr.2 acc)
                sched (eachOfLimit 5 (moveEach srv initial ending) viaNext initial)).
  intros st R Fi J P. unfold logged in J. rewrite <- J in P.
  assert ((running st =? 0) = false) as Rz.
  { destruct (inflight st); [by apply elem_of_nil in P|]. cbn in R. lia. }
  rewrite Rz, andb_false_r in Fi.
  unfold settle. rewrite bool_decide_eq_true_2 by exact P.
  cbn in H. unfold moveDone. rewrite H. cbn [negb].
  unfold iterateeCallback, callback. st_simpl. rewrite Fi. st_simpl.
  unfold viaNext. now rewrite <- app_assoc.
Qed.

Lemma move_batch_first_failure_reported_witness :
  move (sandbox "/srv") (VArr [VStr "a"; VStr "b"]) (VArr [VStr "c"; VStr "d"])
    ([(0%nat, None)] ++ [(1%nat, Some (MkError "EPERM: operation not permitted"))])%list
  = (move (sandbox "/srv") (VArr [VStr "a"; VStr "b"]) (VArr [VStr "c"; VStr "d"])
       [(0%nat, None)]
     ++ [Settle 1 (Some (MkError "EPERM: operation not permitted"));
         Next (Some (MkError "EPERM: operation not permitted")) None])%list.
Proof.
  apply (move_batch_first_failure_reported (sandbox "/srv")
           [VStr "a"; VStr "b"] [VStr "c"; VStr "d"] [(0%nat, None)] 1
           (MkError "EPERM: operation not permitted")).
  - vm_compute. reflexivity.
  - intros [|[|k]] Hk; [reflexivity|reflexivity|cbn in Hk; lia].
  - intros k r H. rewrite !elem_of_cons in H.
    destruct H as [E|E]; [inversion E; reflexivity|].
    now apply elem_of_nil in E.
  - vm_compute. apply elem_of_cons. now left.
  - vm_compute. reflexivity.
Defined.

(** ** [move] of a single path, [compress] of a single source *)

(** X12.  A single path is never moved onto itself or to a place below
    itself: the call is rejected with the self-move error and nothing is
    launched. *)
Theorem move_scalar_below_itself_rejected srv (initial ending : JsVal)
    (sched : Schedule) :
  isArray initial = false -> isArray ending = false ->
  (path srv ending = path srv initial \/
   exists rest, path srv ending = path srv initial ++ "/" ++ rest) ->
  move srv initial ending sched = [Next (Some selfMove) None].
Proof.
  intros Hi He Hp. apply isSelf_spec in Hp.
  unfold move. now rewrite Hi, He, Hp.
Qed.

Lemma move_scalar_below_itself_rejected_witness :
  move (sandbox "/srv") (VStr "maps") (VStr "maps/old/maps") [(0%nat, None)]
  = [Next (Some selfMove) None].
Proof.
  apply (move_scalar_below_itself_rejected (sandbox "/srv")
           (VStr "maps") (VStr "maps/old/maps") [(0%nat, None)]).
  - reflexivity.
  - reflexivity.
  - right. exists "old/maps". vm_compute. reflexivity.
Defined.

Lemma single_first op handler r sched :
  single op handler ((0%nat, r) :: sched) = Launch 0 op :: Settle 0 r :: handler r.
Proof. reflexivity. Qed.

(** X13.  What a single [move] that is launched reports: success when
    [Fs.move] succeeds or fails with an [EEXIST] error, and the error of
    [Fs.move] otherwise.  Moving again what was moved before is therefore
    a success. *)
Theorem move_scalar_reports_outcome srv (initial ending : JsVal)
    (r : option JsError) (sched : Schedule) :
  isArray initial = false -> isArray ending = false ->
  isSelf srv ending initial = false ->
  move srv initial ending ((0%nat, r) :: sched)
  = [Launch 0 (FsMove (path srv initial) (path srv ending));
     Settle 0 r;
     Next (if benign r then None else r) None].
Proof.
  intros Hi He Hs. unfold move. rewrite Hi, He, Hs. cbn [negb andb].
  rewrite single_first. unfold moveDone, benign.
  destruct r as [e|]; [|reflexivity].
  destruct (startsWith (message e) "EEXIST:"); reflexivity.
Qed.

Lemma move_scalar_reports_outcome_witness :
  move (sandbox "/srv") (VStr "a.txt") (VStr "b.txt")
       [(0%nat, Some (MkError "EEXIST: file already exists"))]
  = [Launch 0 (FsMove "/srv/a.txt" "/srv/b.txt");
     Settle 0 (Some (MkError "EEXIST: file already exists"));
     Next None None].
Proof.
  apply (move_scalar_reports_outcome (sandbox "/srv") (VStr "a.txt") (VStr "b.txt")
           (Some (MkError "EEXIST: file already exists")) []);
    vm_compute; reflexivity.
Defined.

(** An array against anything that is not an array: [move] fails with
    the type error, in either order of the arguments, and nothing is
    launched. *)
Lemma move_mixed_arguments_rejected srv (xs : list JsVal) (v : JsVal)
    (sched : Schedule) :
  isArray v = false ->
  move srv (VArr xs) v sched = [Next (Some typeMismatch) None] /\
  move srv v (VArr xs) sched = [Next (Some typeMismatch) None].
Proof.
  intros Hv. unfold move. cbn [isArray]. rewrite Hv. now split.
Qed.

Lemma move_mixed_arguments_rejected_witness :
  move (sandbox "/srv") (VArr [VStr "a"]) (VStr "b") []
  = [Next (Some typeMismatch) None] /\
  move (sandbox "/srv") (VStr "b") (VArr [VStr "a"]) []
  = [Next (Some typeMismatch) None].
Proof.
  apply (move_mixed_arguments_rejected (sandbox "/srv") [VStr "a"] (VStr "b") []).
  reflexivity.
Defined.

(** X14.  A single source is never packed into itself or into a
    directory below itself: [compress] fails with its self-containment
    error and no stream is opened. *)
Theorem compress_single_into_itself_rejected join srv (files : JsVal)
    (to token : string) (sched : Schedule) :
  isArray files = false ->
  (path srv (VStr to) = path srv files \/
   exists rest, path srv (VStr to) = path srv files ++ "/" ++ rest) ->
  compress join srv files (VStr to) token sched
  = [Next (Some selfCompress) None].
Proof.
  intros Hf Hp. apply isSelf_spec in Hp.
  unfold compress. cbn [isString negb]. now rewrite Hf, Hp.
Qed.

Lemma compress_single_into_itself_rejected_witness :
  compress (λ a b, a ++ "/" ++ b) (sandbox "/srv") (VStr "world")
           (VStr "world/backups") "k3J9xQ2m" [(0%nat, None)]
  = [Next (Some selfCompress) None].
Proof.
  apply (compress_single_into_itself_rejected (λ a b, a ++ "/" ++ b)
           (sandbox "/srv") (VStr "world") "world/backups" "k3J9xQ2m"
           [(0%nat, None)]).
  - reflexivity.
  - right. exists "backups". vm_compute. reflexivity.
Defined.

Lemma append_inj_r (p a b : string) : p ++ a = p ++ b -> a = b.
Proof.
  induction p as [|c p IH]; [trivial|].
  change (String c p ++ ?x) with (String c (p ++ x)).
  intros H. inversion H. auto.
Qed.

Lemma append_length (a b : string) :
  String.length (a ++ b) = (String.length a + String.length b)%nat.
Proof.
  induction a as [|c a IH]; [reflexivity|].
  change (String c a ++ b) with (String c (a ++ b)). cbn. now rewrite IH.
Qed.

Lemma append_inj_l (a b s : string) : a ++ s = b ++ s -> a = b.
Proof.
  revert b. induction a as [|c a IH]; intros [|d b] H.
  - reflexivity.
  - apply (f_equal String.length) in H.
    rewrite !append_length in H. cbn in H. lia.
  - apply (f_equal String.length) in H.
    rewrite !append_length in H. cbn in H. lia.
  - change (String c a ++ s) with (String c (a ++ s)) in H.
    change (String d b ++ s) with (String d (b ++ s)) in H.
    inversion H. f_equal. now apply IH.
Qed.

(** X15.  The archive name determines the token: two calls of
    [compress] produce the same archive name only if their random tokens
    are the same. *)
Theorem saveAsName_injective (t1 t2 : string) :
  saveAsName t1 = saveAsName t2 -> t1 = t2.
Proof.
  unfold saveAsName. intros H. apply append_inj_r in H.
  now apply append_inj_l in H.
Qed.

Lemma saveAsName_injective_witness : "k3J9xQ2m" = "k3J9xQ2m".
Proof.
  apply (saveAsName_injective "k3J9xQ2m" "k3J9xQ2m"). reflexivity.
Defined.

(** ** Where [decompress] unpacks *)

Lemma lastIndexOfFrom_absent (s : string) (c : ascii) (i : Z) :
  (forall n, String.get n s <> Some c) -> lastIndexOfFrom i s c = -1.
Proof.
  revert i. induction s as [|a s IH]; intros i H; [reflexivity|].
  cbn [lastIndexOfFrom]. rewrite IH by (intros n; apply (H (S n))).
  change (-1 =? -1) with true. cbv iota.
  destruct (Ascii.eqb_spec a c) as [->|_]; [|reflexivity].
  now specialize (H 0%nat).
Qed.

Lemma lastIndexOfFrom_app (a b : string) (c : ascii) (i : Z) :
  lastIndexOfFrom i (a ++ b) c
  = if lastIndexOfFrom (i + Z.of_nat (String.length a)) b c =? -1
    then lastIndexOfFrom i a c
    else lastIndexOfFrom (i + Z.of_nat (String.length a)) b c.
Proof.
  revert i. induction a as [|x a IH]; intros i.
  - change ("" ++ b) with b. cbn [String.length lastIndexOfFrom].
    rewrite Z.add_0_r.
    destruct (lastIndexOfFrom i b c =? -1) eqn:E; [|reflexivity].
    now apply Z.eqb_eq in E.
  - change (String x a ++ b) with (String x (a ++ b)).
    cbn [lastIndexOfFrom String.length]. rewrite IH.
    replace (i + 1 + Z.of_nat (String.length a))
      with (i + Z.of_nat (S (String.length a))) by lia.
    destruct (lastIndexOfFrom (i + Z.of_nat (S (String.length a))) b c =? -1) eqn:E;
      [reflexivity|]. now rewrite E.
Qed.

Lemma substring_prefix (d rest : string) :
  String.substring 0 (String.length d) (d ++ rest) = d.
Proof. apply prefix_correct. apply prefix_app. Qed.

(** X16.  The directory [decompress] unpacks into is the directory part
    of the resolved archive path: for a resolved path [dir/name], where
    [name] has no slash, the archive is unpacked into [dir]. *)
Theorem decompress_unpacks_into_containing_directory srv (file : JsVal)
    (dir name : string) :
  path srv file = dir ++ "/" ++ name ->
  (forall n, String.get n name <> Some "/"%char) ->
  unpackOp srv file = Unpack (dir ++ "/" ++ name) dir.
Proof.
  intros Hp Hn. unfold unpackOp. rewrite Hp. f_equal.
  unfold dirOf, lastIndexOf, substringTo. rewrite lastIndexOfFrom_app.
  change ("/" ++ name) with (String "/" name).
  cbn [lastIndexOfFrom]. rewrite (lastIndexOfFrom_absent name) by exact Hn.
  change (-1 =? -1) with true. cbv iota. rewrite Ascii.eqb_refl.
  destruct (0 + Z.of_nat (String.length dir) =? -1) eqn:E;
    [apply Z.eqb_eq in E; lia|].
  replace (Z.to_nat (0 + Z.of_nat (String.length dir)))
    with (String.length dir) by lia.
  apply substring_prefix.
Qed.

Lemma decompress_unpacks_into_containing_directory_witness :
  unpackOp (sandbox "/srv") (VStr "backups/a.tar")
  = Unpack ("/srv/backups" ++ "/" ++ "a.tar") "/srv/backups".
Proof.
  apply (decompress_unpacks_into_containing_directory (sandbox "/srv")
           (VStr "backups/a.tar") "/srv/backups" "a.tar").
  - vm_compute. reflexivity.
  - intros [|[|[|[|[|n]]]]]; cbn; discriminate.
Defined.

(** ** Where [decompress] unpacks *)

(** X31.  The destination of [decompress] is never the archive or a
    place below it: the directory cut out of a resolved path that is not
    empty is strictly shorter than the path, so the comparison [isSelf]
    makes between a target and a source fails for it. *)
Theorem decompress_destination_outside_archive srv (file : JsVal) :
  path srv file <> "" ->
  match unpackOp srv file with
  | Unpack archive dest =>
      (String.length dest < String.length archive)%nat /\
      nestedAt dest archive = false
  | _ => False
  end.
Proof.
  intros Hp. unfold unpackOp.
  pose proof (dirOf_shorter _ Hp) as L. split; [exact L|].
  unfold nestedAt, startsWith.
  destruct (String.prefix (path srv file) (dirOf (path srv file))) eqn:P;
    [|reflexivity].
  apply prefix_length in P. lia.
Qed.

Lemma decompress_destination_outside_archive_witness :
  (String.length "/srv/backups" < String.length "/srv/backups/a.tar")%nat /\
  nestedAt "/srv/backups" "/srv/backups/a.tar" = false.
Proof.
  apply (decompress_destination_outside_archive (sandbox "/srv")
           (VStr "backups/a.tar")).
  vm_compute. discriminate.
Defined.

(** ** [read] and [readEnd] together *)

(** X17.  The ceiling of [read]: a regular file of at most 10,000,000
    bytes is returned whole, a file one byte larger fails with the
    too-large error, and anything that is not a regular file fails with
    the not-a-file error. *)
Theorem read_ceiling srv disk (file : JsVal) (n : Node) :
  disk (path srv file) = inr n ->
  read srv disk file
  = match kind n with
    | KFile =>
        if Z.of_nat (length (bytes n)) <=? 10000000
        then ReadText (utf8Decode (bytes n)) else ReadFailed tooLarge
    | _ => ReadFailed notAFile
    end.
Proof.
  intros Hd. unfold read, fsStat, fsReadFile. rewrite Hd.
  cbn [statsOf isFile size].
  destruct (kind n); cbn [negb]; try reflexivity.
  destruct (Z.of_nat (length (bytes n)) >? 10000000) eqn:G;
    destruct (Z.of_nat (length (bytes n)) <=? 10000000) eqn:L;
    try reflexivity; lia.
Qed.

Lemma read_ceiling_witness :
  read (sandbox "/srv") sampleDisk (VStr "latest.log")
  = ReadText [97; 98; 99; 100; 101].
Proof.
  apply (read_ceiling (sandbox "/srv") sampleDisk (VStr "latest.log")
           (MkNode KFile [Byte.x61; Byte.x62; Byte.x63; Byte.x64; Byte.x65] 0 0 0)).
  reflexivity.
Defined.

(** Bytes below 128 are characters of their own: the text has the value
    of every byte, and the decoder is between two characters after each. *)
Lemma ascii_decode (l : list Byte.byte) :
  isAscii l = true ->
  utf8Decode l = map byteVal l /\ stateAfter None l = None.
Proof.
  unfold utf8Decode, isAscii.
  induction l as [|b l IH]; [now split|].
  cbn [forallb]. intros H. apply andb_true_iff in H as [Hb Hl].
  destruct (IH Hl) as [D W].
  cbn [decodeFrom stateAfter step map]. unfold lead. rewrite Hb.
  cbn [snd app]. now rewrite D.
Qed.

Lemma isAscii_drop (k : nat) (l : list Byte.byte) :
  isAscii l = true -> isAscii (drop k l) = true.
Proof.
  unfold isAscii. revert l. induction k as [|k IH]; intros [|b l] H;
    try assumption.
  cbn [forallb] in H. apply andb_true_iff in H as [_ H]. now apply IH.
Qed.

Lemma isAscii_take (k : nat) (l : list Byte.byte) :
  isAscii l = true -> isAscii (take k l) = true.
Proof.
  unfold isAscii. revert l. induction k as [|k IH]; intros [|b l] H;
    try reflexivity.
  cbn [forallb take] in *. apply andb_true_iff in H as [Hb H].
  rewrite Hb. now apply IH.
Qed.

Lemma ascii_unsplit (fuel k : nat) (l : list Byte.byte) :
  isAscii l = true -> unsplit (chunksOf fuel k l) = true.
Proof.
  revert l. induction fuel as [|fuel IH]; intros l H; [reflexivity|].
  destruct l as [|b l]; [reflexivity|].
  cbn [chunksOf unsplit].
  specialize (IH (drop k (b :: l)) (isAscii_drop k _ H)).
  destruct (chunksOf fuel k (drop k (b :: l))); [reflexivity|].
  rewrite IH, andb_true_r. unfold wholeChars.
  now rewrite (proj2 (ascii_decode _ (isAscii_take k _ H))).
Qed.

(** X18.  [readEnd] against [read] on a file of ASCII bytes, where a
    character is a byte: whenever [read] returns the text of the file and
    the bound is not negative, [readEnd] returns that text without its
    first [size - bound] characters; with a bound of at least the size the
    two return the same text. *)
Theorem readEnd_is_suffix_of_read srv disk (file : JsVal) (maxBytes : option Z)
    (n : Node) (full : list Z) :
  disk (path srv file) = inr n ->
  isAscii (bytes n) = true ->
  read srv disk file = ReadText full ->
  0 <= default 80000 maxBytes ->
  readEnd srv disk file maxBytes
  = ReadText (drop (length full - Z.to_nat (default 80000 maxBytes)) full).
Proof.
  intros Hd Ha Hr Hb. apply read_text_inv in Hr as (n' & Hd' & Hk & ->).
  rewrite Hd in Hd'. injection Hd' as <-.
  rewrite (readEnd_stream srv disk file n maxBytes Hd Hk Hb).
  set (b := Z.to_nat (default 80000 maxBytes)).
  set (k := (length (bytes n) - b)%nat).
  rewrite decode_unsplit by (apply ascii_unsplit, isAscii_drop, Ha).
  rewrite chunksOf_concat; [|unfold highWaterMark; lia|lia].
  rewrite (proj1 (ascii_decode _ Ha)).
  rewrite (proj1 (ascii_decode _ (isAscii_drop k _ Ha))).
  rewrite length_map. fold k. now rewrite skipn_map.
Qed.

Lemma readEnd_is_suffix_of_read_witness :
  readEnd (sandbox "/srv") sampleDisk (VStr "latest.log") (Some 3)
  = ReadText [99; 100; 101].
Proof.
  apply (readEnd_is_suffix_of_read (sandbox "/srv") sampleDisk
           (VStr "latest.log") (Some 3)
           (MkNode KFile [Byte.x61; Byte.x62; Byte.x63; Byte.x64; Byte.x65] 0 0 0)
           [97; 98; 99; 100; 101]).
  - reflexivity.
  - reflexivity.
  - reflexivity.
  - cbn. lia.
Defined.

(** X19.  A negative bound: on a regular file [readEnd] asks for a range
    whose start lies behind its end, the stream constructor throws, and
    [next] is never called. *)
Theorem readEnd_negative_bound_throws srv disk (file : JsVal) (n : Node)
    (bound : Z) :
  disk (path srv file) = inr n -> kind n = KFile -> bound < 0 ->
  readEnd srv disk file (Some bound) = ReadThrew.
Proof.
  intros Hd Hk Hb. unfold readEnd, fsStat. rewrite Hd.
  change (default 80000 (Some bound)) with bound.
  cbn [statsOf isFile size]. rewrite Hk. cbn [negb].
  pose proof (Nat2Z.is_nonneg (length (bytes n))) as P.
  destruct (_ >? bound) eqn:G; [|lia].
  unfold createReadStream.
  destruct (_ >? Z.of_nat (length (bytes n))) eqn:T; [reflexivity|lia].
Qed.

Lemma readEnd_negative_bound_throws_witness :
  readEnd (sandbox "/srv") sampleDisk (VStr "latest.log") (Some (-1)) = ReadThrew.
Proof.
  apply (readEnd_negative_bound_throws (sandbox "/srv") sampleDisk
           (VStr "latest.log")
           (MkNode KFile [Byte.x61; Byte.x62; Byte.x63; Byte.x64; Byte.x65] 0 0 0)
           (-1)).
  - reflexivity.
  - reflexivity.
  - lia.
Defined.


(** ** [stat] *)

(** X21.  The only error [stat] ever hands to [next] is the error of
    [Fs.stat]: a failure of the MIME detection is never reported. *)
Theorem stat_reports_only_fs_errors base srv (file : JsVal)
    (s : JsError + Stats) (m : MimeOutcome) (err : JsError)
    (meta : option FileMeta) :
  StatNext (Some err) meta ∈ stat base srv file s m -> s = inl err.
Proof.
  unfold stat. destruct s as [e|st]; cbn; rewrite ?elem_of_cons.
  - intros [H|[H|H]]; [now inversion H|discriminate|by apply elem_of_nil in H].
  - intros [H|H]; [discriminate|by apply elem_of_nil in H].
Qed.

Lemma stat_reports_only_fs_errors_witness :
  (inl enoent : JsError + Stats) = inl enoent.
Proof.
  apply (stat_reports_only_fs_errors id (sandbox "/srv") (VStr "gone")
           (inl enoent) (inl (MkError "cannot open")) enoent None).
  apply elem_of_cons. now left.
Defined.

(** When [Fs.stat] fails, [stat] calls [next] with the error and then
    goes on: the detection is still started, and building the record from
    the missing [stat] object throws.  [next] is not called a second
    time. *)
Lemma stat_failure_reports_then_throws base srv (file : JsVal)
    (err : JsError) (m : MimeOutcome) :
  stat base srv file (inl err) m = [StatNext (Some err) None; StatThrow].
Proof. reflexivity. Qed.

(** ** [directory] *)

Section Sorting.

Variable lowerCase : string -> string.

Lemma keyLe_total (a b : FileMeta) :
  keyLe lowerCase a b = false -> keyLe lowerCase b a = true.
Proof.
  unfold keyLe. rewrite (String.compare_antisym (lowerCase (name b))).
  destruct (String.compare (lowerCase (name a)) (lowerCase (name b)));
    cbn; try congruence. intros H. apply Z.leb_gt in H. apply Z.leb_le. lia.
Qed.

Lemma insertSorted_HdRel (a x : FileMeta) (l : list FileMeta) :
  HdRel (keyOrder lowerCase) a l -> keyOrder lowerCase a x ->
  HdRel (keyOrder lowerCase) a (insertSorted lowerCase x l).
Proof.
  intros H Hx. destruct l as [|y l]; cbn; [now constructor|].
  destruct (keyLe lowerCase y x); constructor; auto. now inversion H.
Qed.

Lemma insertSorted_sorted (x : FileMeta) (l : list FileMeta) :
  Sorted (keyOrder lowerCase) l ->
  Sorted (keyOrder lowerCase) (insertSorted lowerCase x l).
Proof.
  induction 1 as [|y l S IH H]; cbn; [repeat constructor|].
  destruct (keyLe lowerCase y x) eqn:E.
  - constructor; [exact IH|]. now apply insertSorted_HdRel.
  - constructor; [now constructor|]. constructor. now apply keyLe_total.
Qed.

Lemma insertSorted_perm (x : FileMeta) (l : list FileMeta) :
  insertSorted lowerCase x l ≡ₚ x :: l.
Proof.
  induction l as [|y l IH]; cbn; [reflexivity|].
  destruct (keyLe lowerCase y x); [|reflexivity].
  rewrite IH. apply Permutation_swap.
Qed.

Lemma sortBy_from (l acc : list FileMeta) :
  Sorted (keyOrder lowerCase) acc ->
  Sorted (keyOrder lowerCase)
    (fold_left (λ acc x, insertSorted lowerCase x acc) l acc)
  /\ fold_left (λ acc x, insertSorted lowerCase x acc) l acc ≡ₚ (acc ++ l)%list.
Proof.
  revert acc. induction l as [|x l IH]; intros acc S; cbn.
  - split; [exact S|now rewrite app_nil_r].
  - destruct (IH (insertSorted lowerCase x acc)) as [S' P];
      [now apply insertSorted_sorted|].
    split; [exact S'|]. rewrite P, insertSorted_perm.
    apply Permutation_middle.
Qed.

(** What [_.sortBy] hands over is in order and has the records it was
    given, each as often as it was given. *)
Lemma sortBy_sorted_perm (l : list FileMeta) :
  Sorted (keyOrder lowerCase) (sortBy lowerCase l) /\ sortBy lowerCase l ≡ₚ l.
Proof. unfold sortBy. apply sortBy_from. constructor. Qed.

End Sorting.

Section DirectoryCalls.

Variable lowerCase : string -> string.

Lemma eachFinal_step err st : dirStep lowerCase st (eachFinal lowerCase err st).
Proof.
  unfold eachFinal, finish, dirStep. destruct (eachFired st) eqn:F; cbn.
  - left. now split.
  - right. repeat split. now exists err, (responseFiles st).
Qed.

Lemma dirStep_shift st st1 st2 :
  calls st1 = calls st -> eachFired st1 = eachFired st ->
  dirStep lowerCase st1 st2 -> dirStep lowerCase st st2.
Proof. unfold dirStep. intros -> ->. trivial. Qed.

Lemma iteratorCallback_step err st :
  dirStep lowerCase st (iteratorCallback lowerCase err st).
Proof.
  unfold iteratorCallback. destruct err as [e|]; [apply eachFinal_step|].
  cbn. case_bool_decide.
  - eapply dirStep_shift; [| |apply eachFinal_step]; reflexivity.
  - left. now split.
Qed.

Lemma autoCallback_step i a err st :
  dirStep lowerCase st (autoCallback lowerCase i a err st).
Proof.
  unfold autoCallback. destruct (autoFired a).
  - left. now split.
  - eapply dirStep_shift; [| |apply iteratorCallback_step]; reflexivity.
Qed.

Lemma taskComplete_step i a st :
  dirStep lowerCase st (taskComplete lowerCase i a st).
Proof.
  unfold taskComplete. destruct (statRunning a || mimeRunning a).
  - left. now split.
  - destruct (hasError a); [apply autoCallback_step|].
    destruct (do_stat a); [|apply autoCallback_step].
    eapply dirStep_shift; [| |apply autoCallback_step]; reflexivity.
Qed.

Lemma settleTask_step i o st :
  dirStep lowerCase st (settleTask lowerCase i o st).
Proof.
  unfold settleTask, taskFailed. destruct (autos st !! i) as [a|];
    [|left; now split].
  destruct o as [[e|s]|[e|r]];
    match goal with |- context [negb ?b] => destruct b end; cbn [negb];
    try (left; now split);
    try apply autoCallback_step; apply taskComplete_step.
Qed.

Lemma settleTasks_calls sched st :
  let st' := fold_left (λ acc io, settleTask lowerCase io.1 io.2 acc) sched st in
  (eachFired st = true -> calls st' = calls st) /\
  (eachFired st = false ->
   calls st' = calls st \/
   exists err l, calls st' = (calls st ++ [(err, sortBy lowerCase l)])%list).
Proof.
  revert st. induction sched as [|[i o] sched IH]; intros st; cbn [fold_left].
  - split; intros; auto.
  - destruct (IH (settleTask lowerCase i o st)) as [T F].
    destruct (settleTask_step i o st) as [[C E]|(E0 & E1 & err & l & C)]; cbn [fst snd] in *.
    + rewrite E, C in *. now split.
    + split; [congruence|]. intros _. right. exists err, l.
      now rewrite (T E1).
Qed.

End DirectoryCalls.

Lemma directory_each lowerCase dir st files sched :
  isDirectory st = true ->
  directory lowerCase dir (inr st) (inr files) sched
  = calls (fold_left (λ acc io, settleTask lowerCase io.1 io.2 acc) sched
             (if bool_decide (length files = 0%nat)
              then eachFinal lowerCase None (dirStarted files)
              else dirStarted files)).
Proof. intros H. unfold directory. rewrite H. reflexivity. Qed.

Lemma directory_calls lowerCase dir s listing sched :
  exists err l, directory lowerCase dir s listing sched = [(err, sortBy lowerCase l)]
  \/ directory lowerCase dir s listing sched = [].
Proof.
  destruct s as [e|st]; [exists (Some e), []; now left|].
  destruct (isDirectory st) eqn:D;
    [|exists (Some notADirectory), []; left; unfold directory; now rewrite D].
  destruct listing as [e|files];
    [exists (Some e), []; left; unfold directory; now rewrite D|].
  rewrite directory_each by exact D. case_bool_decide.
  - destruct (settleTasks_calls lowerCase sched
                (eachFinal lowerCase None (dirStarted files))) as [T _].
    exists None, []. left. now rewrite T.
  - destruct (settleTasks_calls lowerCase sched (dirStarted files)) as [_ F].
    destruct (F eq_refl) as [C|(err & l & C)].
    + exists None, []. right. exact C.
    + exists err, l. left. exact C.
Qed.

(** X22.  [directory] calls [next] at most once, whatever the outcomes
    of the tasks of the children and their order, and the list it hands
    over is in the order of the two sort keys. *)
Theorem directory_one_sorted_call lowerCase (dir : JsVal)
    (s : JsError + Stats) (listing : JsError + list string)
    (sched : list (nat * TaskOutcome)) :
  (length (directory lowerCase dir s listing sched) <= 1)%nat /\
  Forall (λ call, Sorted (keyOrder lowerCase) call.2)
         (directory lowerCase dir s listing sched).
Proof.
  destruct (directory_calls lowerCase dir s listing sched) as (err & l & [E|E]);
    rewrite E; cbn; split; try lia; repeat constructor.
  apply sortBy_sorted_perm.
Qed.

(** X23.  An empty directory: [directory] hands over the empty list
    without error, once, and outcomes that arrive change nothing. *)
Theorem directory_empty lowerCase (dir : JsVal) (st : Stats)
    (sched : list (nat * TaskOutcome)) :
  isDirectory st = true ->
  directory lowerCase dir (inr st) (inr []) sched = [(None, [])].
Proof.
  intros D. rewrite directory_each by exact D.
  rewrite bool_decide_eq_true_2 by reflexivity.
  destruct (settleTasks_calls lowerCase sched
              (eachFinal lowerCase None (dirStarted []))) as [T _].
  now rewrite T.
Qed.

Lemma directory_empty_witness :
  directory id (VStr "empty") (inr (MkStats false true false 4096 0 0 0))
            (inr []) [(0%nat, MimeDone (inr "text/plain"))]
  = [(None, [])].
Proof.
  apply (directory_empty id (VStr "empty") (MkStats false true false 4096 0 0 0)
           [(0%nat, MimeDone (inr "text/plain"))]).
  reflexivity.
Defined.

(** X24.  The first outcome decides a failing listing: if the first
    outcome to arrive is the failure of the [stat] or of the MIME
    detection of a child, [directory] hands that error to [next] with an
    empty list, and nothing that arrives later is reported. *)
Theorem directory_first_failure_aborts lowerCase (dir : JsVal) (st : Stats)
    (files : list string) (i : nat) (e : JsError)
    (rest : list (nat * TaskOutcome)) :
  isDirectory st = true -> (i < length files)%nat ->
  directory lowerCase dir (inr st) (inr files) ((i, StatDone (inl e)) :: rest)
  = [(Some e, [])] /\
  directory lowerCase dir (inr st) (inr files) ((i, MimeDone (inl e)) :: rest)
  = [(Some e, [])].
Proof.
  intros D Hi. rewrite !directory_each by exact D.
  rewrite bool_decide_eq_false_2 by lia. cbn [fold_left fst snd].
  destruct (lookup_lt_is_Some_2 files i Hi) as [f Hf].
  assert (autos (dirStarted files) !! i
          = Some (MkAuto f None None true true false false)) as A.
  { unfold dirStarted. cbn [autos]. now rewrite list_lookup_fmap, Hf. }
  split.
  - destruct (settleTasks_calls lowerCase rest
                (settleTask lowerCase i (StatDone (inl e)) (dirStarted files)))
      as [T _].
    rewrite T; unfold settleTask; rewrite A; reflexivity.
  - destruct (settleTasks_calls lowerCase rest
                (settleTask lowerCase i (MimeDone (inl e)) (dirStarted files)))
      as [T _].
    rewrite T; unfold settleTask; rewrite A; reflexivity.
Qed.

Lemma directory_first_failure_aborts_witness :
  directory id (VStr "d") (inr (MkStats false true false 4096 0 0 0))
    (inr ["a.txt"; "b.txt"])
    [(1%nat, StatDone (inl enoent));
     (0%nat, StatDone (inr (MkStats true false false 3 0 0 0)));
     (0%nat, MimeDone (inr "text/plain"))]
  = [(Some enoent, [])] /\
  directory id (VStr "d") (inr (MkStats false true false 4096 0 0 0))
    (inr ["a.txt"; "b.txt"])
    [(1%nat, MimeDone (inl enoent));
     (0%nat, StatDone (inr (MkStats true false false 3 0 0 0)));
     (0%nat, MimeDone (inr "text/plain"))]
  = [(Some enoent, [])].
Proof.
  apply (directory_first_failure_aborts id (VStr "d")
           (MkStats false true false 4096 0 0 0) ["a.txt"; "b.txt"] 1 enoent
           [(0%nat, StatDone (inr (MkStats true false false 3 0 0 0)));
            (0%nat, MimeDone (inr "text/plain"))]).
  - reflexivity.
  - cbn. lia.
Defined.

(** ** [copy] *)

(** X27.  [copy] throws before anything is copied exactly when the
    options are [undefined] or [null]; every other value in that place,
    the continuation of a call without options included, leads to a call
    of [Fs.copy] on the two resolved paths. *)
Theorem copy_throws_iff_no_options srv (file newpath opts : JsVal) :
  (copy srv file newpath opts = None <-> opts = VUndefined \/ opts = VNull) /\
  (forall call, copy srv file newpath opts = Some call ->
     copySrc call = path srv file /\ copyDst call = path srv newpath).
Proof.
  split.
  - destruct opts; cbn; split; intros H;
      try discriminate; try (destruct H; discriminate); auto.
  - intros call. destruct opts; cbn; intros H; inversion H; now split.
Qed.

(** ** The watcher and [write] together *)

(** X28.  The daemon's own write is not read back: after [write], the
    next change notification only clears the flag; the configuration file
    is not read and the document in memory stays as it is. *)
Theorem write_then_change_is_not_read srv (file : JsVal) (data : string)
    (r : JsError + JsVal) (w : option JsError) (st : Instance) :
  andThen (write srv file data) (changeEvent srv r w) st
  = (tt, MkInstance (json st) false, [OutputFile (path srv file) data]).
Proof. destruct st. reflexivity. Qed.

(** X29.  The flag after a change notification: it is set exactly when
    the notification found it clear and the file did not read as JSON;
    the document in memory changes only when the flag was clear and the
    file did read. *)
Theorem change_sets_flag_iff_undo srv (r : JsError + JsVal)
    (w : option JsError) (st : Instance) :
  let st' := (changeEvent srv r w st).1.2 in
  (knownWrite st' = true <-> knownWrite st = false /\ exists err, r = inl err)
  /\ (json st' <> json st -> knownWrite st = false /\ exists object, r = inr object).
Proof.
  destruct st as [j [|]]; destruct r as [e|o]; destruct w; cbn;
    (split; [split; [intros H|intros [H1 [x H2]]]|intros H]);
    try discriminate; try (exfalso; now apply H); eauto.
Qed.

(** X30.  No feedback loop: the rewrite that undoes an unreadable edit
    produces a change notification of its own, and that notification only
    clears the flag again; the file is not read a second time and the
    document in memory is still the one from before the edit. *)
Theorem undo_write_is_not_read_back srv (document : JsVal) (err : JsError)
    (w : option JsError) (r' : JsError + JsVal) (w' : option JsError) :
  andThen (changeEvent srv (inl err) w) (changeEvent srv r' w')
    (MkInstance document false)
  = (tt, MkInstance document false,
     (changeEvent srv (inl err) w (MkInstance document false)).2).
Proof. destruct w; reflexivity. Qed.

(** *** A listing in which every task succeeds *)

Lemma bounded_NoDup_length (n : nat) (l : list nat) :
  NoDup l -> (forall i, i ∈ l -> (i < n)%nat) -> (length l <= n)%nat.
Proof.
  intros ND B. rewrite <- (length_seq n 0).
  apply NoDup_incl_length; [now apply NoDup_ListNoDup|].
  intros i Hi. apply in_seq. apply list_elem_of_In in Hi. specialize (B i Hi). lia.
Qed.

Lemma bounded_NoDup_missing (n i : nat) (l : list nat) :
  NoDup l -> (forall j, j ∈ l -> (j < n)%nat) -> (i < n)%nat -> i ∉ l ->
  (length l < n)%nat.
Proof.
  intros ND B Hi Hn.
  assert (length (i :: l) <= n)%nat as L.
  { apply bounded_NoDup_length; [now constructor|].
    intros j Hj. apply elem_of_cons in Hj as [->|Hj]; auto. }
  cbn in L. lia.
Qed.

Lemma bounded_NoDup_full (n : nat) (l : list nat) :
  NoDup l -> (forall j, j ∈ l -> (j < n)%nat) -> length l = n -> l ≡ₚ seq 0 n.
Proof.
  intros ND B L. apply NoDup_Permutation; [exact ND|apply NoDup_seq|].
  intros i. rewrite elem_of_seq. split; [intros H; specialize (B i H); lia|].
  intros [_ Hi]. destruct (decide (i ∈ l)) as [|N]; [assumption|].
  pose proof (bounded_NoDup_missing n i l ND B Hi N). lia.
Qed.

Section ListingProof.

Variable lowerCase : string -> string.
Variable files : list string.
Variable stats : nat -> Stats.
Variable mimes : nat -> string.

Lemma setAuto_imap (i : nat) (f : string) (sd md sd' md' : nat -> bool) :
  files !! i = Some f ->
  (forall j, j <> i -> sd' j = sd j /\ md' j = md j) ->
  <[i := autoOf stats mimes f i (sd' i) (md' i)]>
    (imap (λ j g, autoOf stats mimes g j (sd j) (md j)) files)
  = imap (λ j g, autoOf stats mimes g j (sd' j) (md' j)) files.
Proof.
  intros Hf Hj. apply list_eq. intros j.
  destruct (decide (j = i)) as [->|N].
  - rewrite list_lookup_insert_eq
      by (rewrite length_imap; now apply lookup_lt_Some in Hf).
    now rewrite list_lookup_imap, Hf.
  - rewrite list_lookup_insert_ne by congruence.
    rewrite !list_lookup_imap. destruct (files !! j); [|reflexivity].
    cbn. destruct (Hj j N) as [-> ->]. reflexivity.
Qed.

Lemma autoCallback_first (i : nat) (a : Auto) (st : DirSt) :
  autoFired a = false ->
  autoCallback lowerCase i a None st
  = let st' := MkDirSt (<[i := MkAuto (item a) (do_stat a) (do_mime a)
                                  (statRunning a) (mimeRunning a) (hasError a)
                                  true]> (autos st))
                       (S (completed st)) (eachFired st) (responseFiles st)
                       (calls st) in
    if bool_decide (S (completed st) = length (autos st))
    then eachFinal lowerCase None st' else st'.
Proof.
  intros H. unfold autoCallback. rewrite H. unfold iteratorCallback, setAuto.
  cbn [autos completed eachFired responseFiles calls].
  now rewrite length_insert.
Qed.

Lemma markDone_same d i : markDone d i i = true.
Proof. unfold markDone. now rewrite bool_decide_eq_true_2. Qed.

Lemma markDone_other d i j : j <> i -> markDone d i j = d j.
Proof. intros N. unfold markDone. now rewrite bool_decide_eq_false_2. Qed.

Lemma markDone_mono d i j : d j = true -> markDone d i j = true.
Proof. intros H. unfold markDone. now destruct (bool_decide _). Qed.

(** the two tasks of a child, seen alike: [flip] exchanges the roles *)
Lemma listing_unfinished (sd md : nat -> bool) (fin : list nat) (i : nat) :
  NoDup fin ->
  (forall j, j ∈ fin <-> (j < length files)%nat /\ sd j = true /\ md j = true) ->
  (i < length files)%nat -> (sd i && md i) = false ->
  (i ∉ fin) /\ (length fin < length files)%nat
  /\ bool_decide (length fin = length files) = false.
Proof.
  intros ND M Hi U.
  assert (i ∉ fin) as N.
  { intros H. apply M in H as (_ & S1 & S2). now rewrite S1, S2 in U. }
  assert (length fin < length files)%nat as L.
  { apply (bounded_NoDup_missing _ i); auto. intros j Hj. now apply M in Hj. }
  repeat split; auto. apply bool_decide_eq_false_2. lia.
Qed.

Lemma listing_finish_child st (sd md sd' md' : nat -> bool) (fin : list nat)
    (i : nat) (f : string) :
  listingState lowerCase files stats mimes st sd md fin ->
  files !! i = Some f ->
  (sd i && md i) = false -> sd' i = true -> md' i = true ->
  (forall j, j <> i -> sd' j = sd j /\ md' j = md j) ->
  listingState lowerCase files stats mimes
    (autoCallback lowerCase i
       (MkAuto f (Some (stats i)) (Some (mimes i)) false false false false) None
       (do_push (MkAuto f (Some (stats i)) (Some (mimes i)) false false false false)
                (stats i) st))
    sd' md' (fin ++ [i])%list.
Proof.
  intros (A & ND & M & C & R & E & K) Hf U S1 S2 O.
  pose proof (lookup_lt_Some _ _ _ Hf) as Hi.
  destruct (listing_unfinished sd md fin i ND M Hi U) as (N & L & B).
  rewrite B in E. rewrite E in K.
  assert (<[i := MkAuto f (Some (stats i)) (Some (mimes i)) false false false true]>
            (autos st)
          = imap (λ j g, autoOf stats mimes g j (sd' j) (md' j)) files) as A'.
  { rewrite A. rewrite <- (setAuto_imap i f sd md sd' md' Hf O).
    unfold autoOf. now rewrite S1, S2. }
  assert (NoDup (fin ++ [i])%list) as ND'.
  { apply NoDup_app. repeat split; [exact ND| |apply NoDup_singleton].
    intros j Hj Hji. apply list_elem_of_singleton in Hji. now subst. }
  assert (forall j, j ∈ (fin ++ [i])%list
                    <-> (j < length files)%nat /\ sd' j = true /\ md' j = true)
    as M'.
  { intros j. rewrite elem_of_app, list_elem_of_singleton, M.
    destruct (decide (j = i)) as [->|Nj].
    - split; [auto|now right].
    - destruct (O j Nj) as [-> ->]. split; [intros [H|H]; [exact H|congruence]|auto]. }
  assert (map (metaOf files stats mimes) (fin ++ [i])%list
          = (responseFiles st ++
             [MkMeta f (statBirthtime (stats i)) (statMtime (stats i))
                     (size (stats i)) (isDirectory (stats i)) (isFile (stats i))
                     (isSymbolicLink (stats i)) (mimeOr (Some (mimes i)))])%list)
    as R'.
  { rewrite map_app, R. cbn. unfold metaOf. now rewrite Hf. }
  rewrite autoCallback_first by reflexivity. unfold do_push.
  cbn [autos completed eachFired responseFiles calls autoFired item do_stat
       do_mime statRunning mimeRunning hasError].
  rewrite A' , C. rewrite A, length_imap.
  destruct (decide (S (length fin) = length files)) as [Last|Last].
  - rewrite bool_decide_eq_true_2 by exact Last.
    unfold eachFinal. cbn [eachFired]. rewrite E. unfold finish.
    cbn [autos completed eachFired responseFiles calls].
    unfold listingState.
    cbn [autos completed eachFired responseFiles calls].
    rewrite K, <- R', length_app. cbn [length app].
    split; [reflexivity|]. split; [exact ND'|]. split; [exact M'|].
    split; [lia|]. split; [reflexivity|]. split; [|reflexivity].
    symmetry. apply bool_decide_eq_true_2. lia.
  - rewrite bool_decide_eq_false_2 by exact Last.
    unfold listingState.
    cbn [autos completed eachFired responseFiles calls].
    rewrite E, K, <- R', length_app. cbn [length app].
    split; [reflexivity|]. split; [exact ND'|]. split; [exact M'|].
    split; [lia|]. split; [reflexivity|].
    rewrite bool_decide_eq_false_2 by lia. split; reflexivity.
Qed.

Lemma listing_half_done st (sd md sd' md' : nat -> bool) (fin : list nat)
    (i : nat) (f : string) :
  listingState lowerCase files stats mimes st sd md fin ->
  files !! i = Some f ->
  (sd' i && md' i) = false -> (sd i && md i) = false ->
  (forall j, j <> i -> sd' j = sd j /\ md' j = md j) ->
  listingState lowerCase files stats mimes
    (setAuto i (autoOf stats mimes f i (sd' i) (md' i)) st) sd' md' fin.
Proof.
  intros (A & ND & M & C & R & E & K) Hf U' U O.
  pose proof (lookup_lt_Some _ _ _ Hf) as Hi.
  destruct (listing_unfinished sd md fin i ND M Hi U) as (N & _ & _).
  unfold listingState, setAuto.
  cbn [autos completed eachFired responseFiles calls].
  split; [rewrite A; now apply setAuto_imap|].
  split; [exact ND|]. split; [|auto].
  intros j. rewrite M. destruct (decide (j = i)) as [->|Nj].
  - split; intros (_ & S1 & S2).
    + now rewrite S1, S2 in U.
    + now rewrite S1, S2 in U'.
  - now destruct (O j Nj) as [-> ->].
Qed.

Lemma settle_stat_success st (sd md : nat -> bool) (fin : list nat) (i : nat) :
  listingState lowerCase files stats mimes st sd md fin ->
  exists sd' fin',
    listingState lowerCase files stats mimes
      (settleTask lowerCase i (StatDone (inr (stats i))) st) sd' md fin'
    /\ (forall j, sd j = true -> sd' j = true)
    /\ ((i < length files)%nat -> sd' i = true).
Proof.
  intros H. pose proof H as (A & _). unfold settleTask.
  rewrite A, list_lookup_imap.
  destruct (files !! i) as [f|] eqn:Hf; cbn [fmap option_fmap option_map].
  2:{ exists sd, fin. split; [exact H|]. split; [auto|].
      intros Hi. apply lookup_ge_None in Hf. lia. }
  unfold autoOf at 1 2 3 4 5 6 7 8.
  cbn [item do_stat do_mime statRunning mimeRunning hasError autoFired].
  destruct (sd i) eqn:Si; cbn [negb].
  { exists sd, fin. split; [exact H|]. split; auto. }
  unfold taskComplete.
  cbn [item do_stat do_mime statRunning mimeRunning hasError autoFired orb andb].
  destruct (md i) eqn:Mi; cbn [negb].
  - exists (markDone sd i), (fin ++ [i])%list. split.
    + apply (listing_finish_child st sd md (markDone sd i) md fin i f H Hf).
      * now rewrite Si.
      * apply markDone_same.
      * exact Mi.
      * intros j Nj. split; [now apply markDone_other|reflexivity].
    + split; [intros j; apply markDone_mono|intros _; apply markDone_same].
  - exists (markDone sd i), fin. split.
    + pose proof (listing_half_done st sd md (markDone sd i) md fin i f H Hf) as L.
      unfold autoOf in L. rewrite markDone_same, Mi in L. apply L.
      * reflexivity.
      * now rewrite Si.
      * intros j Nj. split; [now apply markDone_other|reflexivity].
    + split; [intros j; apply markDone_mono|intros _; apply markDone_same].
Qed.

Lemma settle_mime_success st (sd md : nat -> bool) (fin : list nat) (i : nat) :
  listingState lowerCase files stats mimes st sd md fin ->
  exists md' fin',
    listingState lowerCase files stats mimes
      (settleTask lowerCase i (MimeDone (inr (mimes i))) st) sd md' fin'
    /\ (forall j, md j = true -> md' j = true)
    /\ ((i < length files)%nat -> md' i = true).
Proof.
  intros H. pose proof H as (A & _). unfold settleTask.
  rewrite A, list_lookup_imap.
  destruct (files !! i) as [f|] eqn:Hf; cbn [fmap option_fmap option_map].
  2:{ exists md, fin. split; [exact H|]. split; [auto|].
      intros Hi. apply lookup_ge_None in Hf. lia. }
  unfold autoOf at 1 2 3 4 5 6 7 8.
  cbn [item do_stat do_mime statRunning mimeRunning hasError autoFired].
  destruct (md i) eqn:Mi; cbn [negb].
  { exists md, fin. split; [exact H|]. split; auto. }
  unfold taskComplete.
  cbn [item do_stat do_mime statRunning mimeRunning hasError autoFired orb andb].
  destruct (sd i) eqn:Si; cbn [negb orb andb].
  - exists (markDone md i), (fin ++ [i])%list. split.
    + apply (listing_finish_child st sd md sd (markDone md i) fin i f H Hf).
      * rewrite Mi. apply andb_false_r.
      * exact Si.
      * apply markDone_same.
      * intros j Nj. split; [reflexivity|now apply markDone_other].
    + split; [intros j; apply markDone_mono|intros _; apply markDone_same].
  - exists (markDone md i), fin. split.
    + pose proof (listing_half_done st sd md sd (markDone md i) fin i f H Hf) as L.
      unfold autoOf in L. rewrite markDone_same, Si in L. apply L.
      * reflexivity.
      * reflexivity.
      * intros j Nj. split; [reflexivity|now apply markDone_other].
    + split; [intros j; apply markDone_mono|intros _; apply markDone_same].
Qed.

Lemma listing_started :
  files <> [] ->
  listingState lowerCase files stats mimes (dirStarted files)
    (λ _, false) (λ _, false) [].
Proof.
  intros Hn. unfold listingState, dirStarted.
  cbn [autos completed eachFired responseFiles calls length map].
  split; [|split; [constructor|split; [|split; [reflexivity|split; [reflexivity|]]]]].
  - apply list_eq. intros i. rewrite list_lookup_fmap, list_lookup_imap.
    now destruct (files !! i).
  - intros i. split; [intros H; by apply elem_of_nil in H|intros (_ & H & _); discriminate].
  - rewrite bool_decide_eq_false_2; [now split|].
    destruct files; [congruence|discriminate].
Qed.

Lemma run_listing sched st (sd md : nat -> bool) (fin : list nat) :
  listingState lowerCase files stats mimes st sd md fin ->
  Forall (succeeds stats mimes) sched ->
  exists sd' md' fin',
    listingState lowerCase files stats mimes
      (fold_left (λ acc io, settleTask lowerCase io.1 io.2 acc) sched st)
      sd' md' fin'
    /\ (forall j, sd j = true -> sd' j = true)
    /\ (forall j, md j = true -> md' j = true)
    /\ (forall i, (i < length files)%nat ->
          (i, StatDone (inr (stats i))) ∈ sched -> sd' i = true)
    /\ (forall i, (i < length files)%nat ->
          (i, MimeDone (inr (mimes i))) ∈ sched -> md' i = true).
Proof.
  revert st sd md fin. induction sched as [|[i o] sched IH];
    intros st sd md fin H F.
  - exists sd, md, fin. split; [exact H|]. split; [auto|]. split; [auto|].
    split; intros j Hj E; by apply elem_of_nil in E.
  - apply Forall_cons in F as [[Ho|Ho] F]; cbn [fst snd] in Ho; subst o;
      cbn [fold_left fst snd].
    + destruct (settle_stat_success st sd md fin i H) as (sd1 & fin1 & H1 & Mo & Hi).
      destruct (IH _ sd1 md fin1 H1 F) as (sd' & md' & fin' & H' & Ms & Mm & Cs & Cm).
      exists sd', md', fin'. split; [exact H'|]. split; [auto|]. split; [auto|].
      split; intros j Hj E; apply elem_of_cons in E as [E|E]; auto.
      * inversion E; subst. auto.
      * inversion E.
    + destruct (settle_mime_success st sd md fin i H) as (md1 & fin1 & H1 & Mo & Hi).
      destruct (IH _ sd md1 fin1 H1 F) as (sd' & md' & fin' & H' & Ms & Mm & Cs & Cm).
      exists sd', md', fin'. split; [exact H'|]. split; [auto|]. split; [auto|].
      split; intros j Hj E; apply elem_of_cons in E as [E|E]; auto.
      * inversion E.
      * inversion E; subst. auto.
Qed.

End ListingProof.

(** X25.  A listing in which nothing fails.  If the directory has
    children and, for every child, the outcome of its [stat] and of its
    MIME detection arrive and are successes, in whatever order and
    interleaving, then [directory] calls [next] exactly once, without
    error, with a list that is in the order of the sort keys and holds the
    record of every child exactly once. *)
Theorem directory_lists_every_child lowerCase (dir : JsVal) (st : Stats)
    (files : list string) (stats : nat -> Stats) (mimes : nat -> string)
    (sched : list (nat * TaskOutcome)) :
  isDirectory st = true ->
  files <> [] ->
  Forall (succeeds stats mimes) sched ->
  (forall i, (i < length files)%nat ->
     (i, StatDone (inr (stats i))) ∈ sched /\
     (i, MimeDone (inr (mimes i))) ∈ sched) ->
  exists l,
    directory lowerCase dir (inr st) (inr files) sched = [(None, l)] /\
    Sorted (keyOrder lowerCase) l /\
    l ≡ₚ map (metaOf files stats mimes) (seq 0 (length files)).
Proof.
  intros D Hn F All. rewrite directory_each by exact D.
  rewrite bool_decide_eq_false_2 by (destruct files; [congruence|discriminate]).
  destruct (run_listing lowerCase files stats mimes sched _ _ _ _
              (listing_started lowerCase files stats mimes Hn) F)
    as (sd & md & fin & (_ & ND & M & _ & _ & E & K) & _ & _ & Cs & Cm).
  assert (fin ≡ₚ seq 0 (length files)) as P.
  { apply NoDup_Permutation; [exact ND|apply NoDup_seq|].
    intros i. rewrite M, elem_of_seq. split; [intros (H & _); lia|].
    intros [_ Hi]. cbn in Hi. destruct (All i Hi) as [Hs Hm]. auto. }
  exists (sortBy lowerCase (map (metaOf files stats mimes) fin)).
  rewrite K, E, bool_decide_eq_true_2
    by (now rewrite (Permutation_length P), length_seq).
  split; [reflexivity|]. split; [apply sortBy_sorted_perm|].
  rewrite (proj2 (sortBy_sorted_perm lowerCase _)). now rewrite P.
Qed.

Lemma directory_lists_every_child_witness :
  exists l,
    directory id (VStr "d") (inr (MkStats false true false 4096 0 0 0))
      (inr ["b.txt"; "a.txt"])
      [(1%nat, MimeDone (inr "text/plain"));
       (0%nat, StatDone (inr (MkStats true false false 3 0 0 0)));
       (1%nat, StatDone (inr (MkStats true false false 3 0 0 0)));
       (0%nat, MimeDone (inr "text/plain"))]
    = [(None, l)] /\
    Sorted (keyOrder id) l /\
    l ≡ₚ map (metaOf ["b.txt"; "a.txt"]
                (λ _, MkStats true false false 3 0 0 0) (λ _, "text/plain"))
             (seq 0 2).
Proof.
  apply (directory_lists_every_child id (VStr "d")
           (MkStats false true false 4096 0 0 0) ["b.txt"; "a.txt"]
           (λ _, MkStats true false false 3 0 0 0) (λ _, "text/plain")).
  - reflexivity.
  - discriminate.
  - repeat (apply Forall_cons; split; [unfold succeeds; cbn; auto|]).
    apply Forall_nil. trivial.
  - intros [|[|i]] Hi; [| |cbn in Hi; lia];
      split; rewrite !elem_of_cons; auto 10.
Defined.
